(** * paraproc: a bounded pool of external commands and Python callables

    A shallow embedding of [paraproc.py] (command normalisation, the
    single-command [run] wrapper and the [PooledCaller] scheduler) together
    with the properties its specification states about it.

    Conventions of the embedding
    - Python [str] is [string]; a character is a code point below 256.
    - Python [bytes] read from a pipe are known by what
      [decode('utf-8')] makes of them: a text, or a fault.
    - Python [int] is [Z] (or [nat] for counters that only count up);
      a [float] is a double, with the rounding of each operation.
    - A function that can raise returns [result A]; a loop that need not
      terminate takes fuel and returns [option (result A)].
    - Wall-clock time is a logical clock that advances on every
      [time.sleep]; [time.time()] reads it.
    - What is only printed on the terminal (the [verbose] traces and the
      live mirroring of [TeeOut]) is not modelled. *)

From Stdlib Require Import ZArith List String Ascii Bool Arith Lia DecimalString Sorted.
From stdpp Require Import base option list gmap strings.
Import ListNotations.

Local Open Scope string_scope.
Local Open Scope list_scope.

(** ** Python values, exceptions and the error monad *)

Inductive pyval :=
| PyNone
| PyBool (b : bool)
| PyInt (z : Z)
| PyStr (s : string).

Definition truthy (v : pyval) : bool :=
  match v with
  | PyNone => false
  | PyBool b => b
  | PyInt z => negb (z =? 0)%Z
  | PyStr s => negb (String.eqb s EmptyString)
  end.

(** Keyword arguments: the ordered key/value pairs of a [**kwargs] dict. *)
Definition kwargs := list (string * pyval).

Fixpoint kw_lookup (k : string) (kw : kwargs) : option pyval :=
  match kw with
  | [] => None
  | (k', v) :: kw' => if String.eqb k k' then Some v else kw_lookup k kw'
  end.

(** Exception classes.  [SystemExit] carries its [code] attribute, which
    decides the exit status of the process that raises it. *)
Inductive exn_class :=
| ValueError | KeyError | IndexError | ZeroDivisionError | OverflowError
| UnicodeDecodeError | TypeError | OSError | RuntimeError | Exception
| KeyboardInterrupt | SystemExit (code : pyval).

(** Every class above derives from [Exception] except [KeyboardInterrupt]
    and [SystemExit], which derive from [BaseException] only. *)
Definition is_Exception (c : exn_class) : bool :=
  match c with
  | KeyboardInterrupt | SystemExit _ => false
  | _ => true
  end.

(** An exception object: its class and [str(e)]. *)
Record exn := Exc { exn_cls : exn_class; exn_str : string }.

Inductive result (A : Type) :=
| Ret (a : A)
| Raise (e : exn).
Arguments Ret {A} a.
Arguments Raise {A} e.

Definition bind {A B} (r : result A) (k : A -> result B) : result B :=
  match r with
  | Ret a => k a
  | Raise e => Raise e
  end.

Notation "'do' x <- r ; k" := (bind r (fun x => k))
  (at level 10, x pattern, r at level 100, k at level 200).

(** What one call of a Python callable does, as far as the pool can see:
    the text it prints on either stream and how the call ends. *)
Record behaviour := {
  b_stdout : string;
  b_stderr : string;
  b_result : result pyval
}.

Record callable := {
  fn_name : string;
  fn_call : list pyval -> kwargs -> behaviour
}.

(** A unit of work: free text, an argument list, or a callable. *)
Inductive command :=
| CmdStr (s : string)
| CmdList (l : list string)
| CmdCallable (f : callable).

(** ** Text helpers *)

Definition str_of_nat (n : nat) : string :=
  NilEmpty.string_of_uint (Nat.to_uint n).

Definition str_of_Z (z : Z) : string :=
  NilEmpty.string_of_int (Z.to_int z).

(** [s1 in s2] on Python strings. *)
Fixpoint contains (needle hay : string) : bool :=
  if String.prefix needle hay then true
  else match hay with
       | EmptyString => false
       | String _ hay' => contains needle hay'
       end.

Definition LF : ascii := ascii_of_nat 10.
Definition CR : ascii := ascii_of_nat 13.
Definition TAB : ascii := ascii_of_nat 9.
Definition DQUOTE : ascii := ascii_of_nat 34.
Definition SQUOTE : ascii := ascii_of_nat 39.
Definition BACKSLASH : ascii := ascii_of_nat 92.
Definition NL : string := String LF EmptyString.

Definition snoc (s : string) (c : ascii) : string := s +:+ String c EmptyString.

(** ** [shlex.split(s)] (standard library, POSIX mode)

    [shlex.split] builds a lexer with [posix=True], [whitespace_split=True]
    and no comment characters and collects its tokens.  [lex] is
    [shlex.read_token] unrolled over the whole input: [state] is
    [self.state], [token] is [self.token] and [quoted] the local flag. *)
Module Shlex.

Definition whitespace (c : ascii) : bool :=
  Ascii.eqb c " " || Ascii.eqb c TAB || Ascii.eqb c CR || Ascii.eqb c LF.
Definition quotes (c : ascii) : bool :=
  Ascii.eqb c SQUOTE || Ascii.eqb c DQUOTE.
Definition escape (c : ascii) : bool := Ascii.eqb c BACKSLASH.
Definition escapedquotes (c : ascii) : bool := Ascii.eqb c DQUOTE.

Inductive state :=
| Blank                              (* ' ' : between tokens *)
| Word                               (* 'a' : inside a token *)
| Quote (q : ascii)                  (* inside a quotation opened by q *)
| Escape (escapedstate : option ascii).
    (* after a backslash; escapedstate is 'a' (None) or the open quote *)

(** The value [read_token] returns when it stops on the current token:
    in POSIX mode an unquoted empty token is no token. *)
Definition emit (token : string) (quoted : bool) (rest : list string) : list string :=
  if negb quoted && String.eqb token EmptyString then rest else token :: rest.

Fixpoint lex (s : string) (st : state) (token : string) (quoted : bool)
  : result (list string) :=
  match s with
  | EmptyString =>
      match st with
      | Blank | Word => Ret (emit token quoted [])
      | Quote _ => Raise (Exc ValueError "No closing quotation")
      | Escape _ => Raise (Exc ValueError "No escaped character")
      end
  | String c rest =>
      match st with
      | Blank =>
          if whitespace c then
            if negb (String.eqb token EmptyString) || quoted
            then do toks <- lex rest Blank EmptyString false; Ret (emit token quoted toks)
            else lex rest Blank token quoted
          else if escape c then lex rest (Escape None) token quoted
          else if quotes c then lex rest (Quote c) token quoted
          else lex rest Word (String c EmptyString) quoted
      | Word =>
          if whitespace c then
            if negb (String.eqb token EmptyString) || quoted
            then do toks <- lex rest Blank EmptyString false; Ret (emit token quoted toks)
            else lex rest Blank token quoted
          else if quotes c then lex rest (Quote c) token quoted
          else if escape c then lex rest (Escape None) token quoted
          else lex rest Word (snoc token c) quoted
      | Quote q =>
          if Ascii.eqb c q then lex rest Word token true
          else if escape c && escapedquotes q then lex rest (Escape (Some q)) token true
          else lex rest (Quote q) (snoc token c) true
      | Escape escapedstate =>
          match escapedstate with
          | Some q =>
              let token := if negb (escape c) && negb (Ascii.eqb c q)
                           then snoc token BACKSLASH else token in
              lex rest (Quote q) (snoc token c) quoted
          | None => lex rest Word (snoc token c) quoted
          end
      end
  end.

Definition split (s : string) : result (list string) := lex s Blank EmptyString false.

End Shlex.

(** ** Command normalisation *)

(** The [shell] argument of [cmd_for_exec]: a flag, or the caller's keyword
    dict from which the flag is inferred. *)
Inductive shell_arg :=
| ShellFlag (b : bool)
| ShellKwargs (kw : kwargs).

Definition cmd_for_exec (cmd : command) (shell : shell_arg) : result command :=
  let shell :=
    match shell with
    | ShellKwargs kw =>
        match kw_lookup "shell" kw with
        | Some v => truthy v
        | None => false
        end
    | ShellFlag b => b
    end in
  match cmd with
  | CmdCallable _ => Ret cmd
  | CmdStr s =>
      if shell then Ret cmd
      else do l <- Shlex.split s; Ret (CmdList l)
  | CmdList l =>
      if shell then Ret (CmdStr (String.concat " " l))
      else Ret cmd
  end.

Definition cmd_for_disp (cmd : command) : result command :=
  match cmd with
  | CmdCallable _ => Ret cmd
  | CmdStr s => do l <- Shlex.split s; Ret (CmdStr (String.concat " " l))
  | CmdList l => Ret (CmdStr (String.concat " " l))
  end.

(** The display form of an argument list, split again for direct
    execution. *)
Definition redisplay (l : list string) : result command :=
  do d <- cmd_for_disp (CmdList l); cmd_for_exec d (ShellFlag false).

(** ** The single-command wrapper [run] *)

(** A [bytes] line read from a pipe, known by what [decode('utf-8')] makes
    of it: the text it encodes, or the [UnicodeDecodeError] (with its
    message) raised for bytes that are not UTF-8. *)
Inductive rawline :=
| Encoded (text : string)
| Undecodable (reason : string).

Definition decode_utf8 (line : rawline) : result string :=
  match line with
  | Encoded text => Ret text
  | Undecodable reason => Raise (Exc UnicodeDecodeError reason)
  end.

(** What [subprocess.Popen] and the child do for one command line: creation
    may fail with a fault of Popen's own; otherwise the child writes lines
    of bytes (the non-empty reads before the end of its output), takes some
    time and exits with a return code. *)
Record child := {
  ch_pid : nat;
  ch_lines : list rawline;
  ch_returncode : Z;
  ch_duration : nat
}.

(** [Popen] receives whatever [cmd_for_exec] returned. *)
Definition popen_t := command -> result child.

(** The reading loop of [run]: every line is decoded and appended; the first
    line that does not decode ends the loop with its fault. *)
Fixpoint read_output (lines : list rawline) (output : list string)
  : result (list string) :=
  match lines with
  | [] => Ret output
  | line :: lines' =>
      do text <- decode_utf8 line;
      read_output lines' (output ++ [text])
  end.

Record run_res := {
  res_cmd : string;
  res_pid : nat;
  res_output : list string;
  res_start_time : nat;
  res_returncode : Z;
  res_stop_time : nat
}.

(** [repr] of a display form inside an f-string. *)
Definition disp_str (cmd : command) : string :=
  match cmd with
  | CmdStr s => s
  | CmdList l => String.concat " " l
  | CmdCallable f => "<function " +:+ fn_name f +:+ ">"
  end.

Definition run_error_message (returncode : Z) (cmd_str : string) : string :=
  "Error occurs when executing the following command (returncode="
    +:+ str_of_Z returncode +:+ "):" +:+ NL +:+ cmd_str.

Definition run (popen : popen_t) (now : nat) (cmd : command) (check : bool)
  : result run_res :=
  do cmd <- cmd_for_exec cmd (ShellFlag false);
  do cmd_str <- cmd_for_disp cmd;
  let cmd_str := disp_str cmd_str in
  do p <- popen cmd;
  do output <- read_output (ch_lines p) [];
  let res := {| res_cmd := cmd_str;
                res_pid := ch_pid p;
                res_output := output;
                res_start_time := now;
                res_returncode := ch_returncode p;
                res_stop_time := now + ch_duration p |} in
  if negb (res_returncode res =? 0)%Z && check
  then Raise (Exc RuntimeError (run_error_message (ch_returncode p) cmd_str))
  else Ret res.

(** ** [str.splitlines(True)] (built-in)

    Line boundaries are LF, CR, CR LF, VT, FF, FS, GS, RS and NEL; the
    separators stay at the end of each line. *)
Definition linebreak (c : ascii) : bool :=
  let n := nat_of_ascii c in
  existsb (Nat.eqb n) [10; 11; 12; 13; 28; 29; 30; 133]%nat.

Fixpoint splitlines_from (cur s : string) : list string :=
  match s with
  | EmptyString => if String.eqb cur EmptyString then [] else [cur]
  | String c rest =>
      if linebreak c then
        match rest with
        | String c2 rest2 =>
            if Ascii.eqb c CR && Ascii.eqb c2 LF
            then snoc (snoc cur c) c2 :: splitlines_from EmptyString rest2
            else snoc cur c :: splitlines_from EmptyString rest
        | EmptyString => [snoc cur c]
        end
      else splitlines_from (snoc cur c) rest
  end.

Definition splitlines (s : string) : list string := splitlines_from EmptyString s.

(** ** The callable executor *)

(** An item of [res_queue]: [[idx, value]] pushed by the poller for an
    external command, [[idx, value, output]] pushed by a callable's worker. *)
Record res_entry := {
  e_idx : nat;
  e_value : pyval;
  e_output : option (list string)
}.

(** One run of [_callable_wrapper] inside its worker process. *)
Record wrapper_run := {
  wr_out : string;              (* final content of the [out] buffer *)
  wr_err : string;              (* final content of the [err] buffer *)
  wr_puts : list res_entry;     (* items put on [res_queue], in order *)
  wr_exit : result unit         (* how the call ends *)
}.

Definition fault_diagnostic (idx : nat) (e : exn) : string :=
  ">> Error occurs in job#" +:+ str_of_nat idx +:+ NL
    +:+ "** ERROR: " +:+ exn_str e +:+ NL.

Definition _callable_wrapper (idx : nat) (cmd : callable)
    (args : list pyval) (kw : kwargs) : wrapper_run :=
  let b := fn_call cmd args kw in
  let out := b_stdout b in
  let err := b_stderr b in
  let res := PyNone in
  (* try / except Exception *)
  let '(res, err, exit) :=
    match b_result b with
    | Ret v => (v, err, Ret tt)
    | Raise e =>
        if is_Exception (exn_cls e)
        then (res, err +:+ fault_diagnostic idx e, Raise e)
        else (res, err, Raise e)
    end in
  (* finally *)
  let output := splitlines out ++ splitlines err in
  {| wr_out := out;
     wr_err := err;
     wr_puts := [ {| e_idx := idx; e_value := res; e_output := Some output |} ];
     wr_exit := exit |}.

(** Exit status of a [multiprocessing.Process] whose target ended this
    way: 0 after a return; after [SystemExit] what its code says ([None] is
    0, an int is itself, of which the parent sees the low eight bits,
    anything else is 1); 1 after any other fault. *)
Definition exit_status (code : pyval) : Z :=
  match code with
  | PyNone => 0
  | PyBool b => if b then 1 else 0
  | PyInt c => c mod 256
  | PyStr _ => 1
  end.

Definition process_exitcode (r : result unit) : Z :=
  match r with
  | Ret _ => 0
  | Raise e =>
      match exn_cls e with
      | SystemExit code => exit_status code
      | _ => 1
      end
  end.

(** ** Job records *)

(** The dict built by [dispatch].  Keys that are added later are options;
    [j_watcher] says whether the helper keys ['watcher'] and ['speed_up']
    are present.  The random ['uuid'] token is not modelled. *)
Record Job := {
  j_idx : nat;
  j_cmd : command;
  j_output : list string;
  j_start_time : nat;
  j_pid : nat;
  j_stop_time : option nat;
  j_returncode : option Z;
  j_watcher : bool
}.

(** ** The verdict checker *)

Definition lower (c : ascii) : ascii :=
  let n := nat_of_ascii c in
  if (65 <=? n)%nat && (n <=? 90)%nat then ascii_of_nat (n + 32) else c.

Fixpoint prefix_ci (p s : string) : bool :=
  match p, s with
  | EmptyString, _ => true
  | String a p', String b s' => Ascii.eqb (lower a) (lower b) && prefix_ci p' s'
  | String _ _, EmptyString => false
  end.

(** A compiled pattern, as its [search] method. *)
Definition regex := string -> bool.

Fixpoint search_at_any (m : string -> bool) (s : string) : bool :=
  m s || match s with
         | EmptyString => false
         | String _ s' => search_at_any m s'
         end.

(** [re.compile('error|\*{2}', re.IGNORECASE).search] *)
Definition default_error_pattern : regex :=
  search_at_any (fun s => prefix_ci "error" s || String.prefix "**" s).

(** [np.any] over a list of integers. *)
Definition np_any (codes : list Z) : bool :=
  existsb (fun c => negb (c =? 0)%Z) codes.

(** [[job['returncode'] for job in jobs]] *)
Fixpoint returncodes (jobs : list Job) : result (list Z) :=
  match jobs with
  | [] => Ret []
  | job :: jobs' =>
      match j_returncode job with
      | None => Raise (Exc KeyError "'returncode'")
      | Some c => do cs <- returncodes jobs'; Ret (c :: cs)
      end
  end.

Definition count_errors (pat : regex) (jobs : list Job) : nat :=
  list_sum (map (fun job => length (filter (fun line => pat line = true) (j_output job))) jobs).

(** [all_successful] with [jobs] already defaulted by the caller (see
    [PooledCaller.all_successful] below for the default). *)
Definition all_successful_of (error_pattern : option regex) (jobs : list Job)
  : result bool :=
  do codes <- returncodes jobs;
  let all_zero := negb (np_any codes) in
  let n_errors :=
    match error_pattern with
    | Some pat => count_errors pat jobs
    | None => 0
    end in
  Ret (all_zero && Nat.eqb n_errors 0).

(** ** Python containers used by the pool *)

(** [sorted(l, key=...)]: stable, ascending. *)
Section Sorted.
Context {A : Type} (key : A -> nat).

Fixpoint insert_sorted (x : A) (l : list A) : list A :=
  match l with
  | [] => [x]
  | y :: l' => if (key x <=? key y)%nat then x :: l else y :: insert_sorted x l'
  end.

Definition sorted (l : list A) : list A := foldr insert_sorted [] l.
End Sorted.

(** A [dict] with integer keys: insertion-ordered, assignment to a present
    key keeps its position. *)
Section Dict.
Context {V : Type}.

Fixpoint dict_get (k : nat) (d : list (nat * V)) : option V :=
  match d with
  | [] => None
  | (k', v) :: d' => if (k =? k')%nat then Some v else dict_get k d'
  end.

Fixpoint dict_set (k : nat) (v : V) (d : list (nat * V)) : list (nat * V) :=
  match d with
  | [] => [(k, v)]
  | (k', v') :: d' =>
      if (k =? k')%nat then (k, v) :: d' else (k', v') :: dict_set k v d'
  end.

Definition dict_values (d : list (nat * V)) : list V := map snd d.
End Dict.

(** ** The operating system as the pool observes it

    Processes are numbered in the order the pool starts them.  The world
    fixes, for the n-th process, whether creating it succeeds and with
    which pid, what an external command returns, which lines the watcher
    thread of an external command has captured by the time the poller has
    joined it ([os_lines]), and at which clock readings the process is
    found terminated.

    The watcher threads run beside the pool.  What a job's output list
    holds while its command is still running is not represented: the
    captured lines appear in the job record when the poller has joined the
    watcher.  Nor is a [watcher.join()] that does not return (it has no
    timeout, and the stream of a terminated command stays open as long as
    another process holds the pipe): a round of polling is described as
    it is when every join returns. *)
Record World := {
  os_cpu_count : nat;
  os_popen : nat -> command -> kwargs -> result nat;
  os_start : nat -> nat;
  os_lines : nat -> list string;
  os_returncode : nat -> Z;
  os_exited : nat -> nat -> bool
}.

Inductive proc_kind := Popen | Process.

(** A process handle in [self.ps].  [p_ref] is the object's identity (its
    start number); [p_exit] is the status it reports once terminated. *)
Record proc := {
  p_ref : nat;
  p_pid : nat;
  p_kind : proc_kind;
  p_exit : Z
}.

(** [l.remove(p)]: delete the first element equal to [p]; handles compare
    by identity. *)
Fixpoint remove_proc (p : proc) (l : list proc) : list proc :=
  match l with
  | [] => []
  | q :: l' => if (p_ref p =? p_ref q)%nat then l' else q :: remove_proc p l'
  end.

(** ** [range] objects and generator expressions (built-in) *)

Record pyrange := { r_start : Z; r_stop : Z; r_step : Z }.

(** [range(start, stop, step)] *)
Definition mk_range (start stop step : Z) : result pyrange :=
  if (step =? 0)%Z
  then Raise (Exc ValueError "range() arg 3 must not be zero")
  else Ret {| r_start := start; r_stop := stop; r_step := step |}.

(** [len(r)] *)
Definition range_len (r : pyrange) : nat :=
  Z.to_nat
    (if (0 <? r_step r)%Z
     then (if (r_start r <? r_stop r)%Z
           then (r_stop r - r_start r - 1) / r_step r + 1 else 0)
     else (if (r_stop r <? r_start r)%Z
           then (r_start r - r_stop r - 1) / (- r_step r) + 1 else 0))%Z.

(** [list(r)] *)
Definition range_elems (r : pyrange) : list Z :=
  map (fun i => (r_start r + Z.of_nat i * r_step r)%Z) (seq 0 (range_len r)).

(** A generator, once created: the items it computes one per [next], each
    of which may raise. *)
Definition generator (A : Type) := list (result A).

(** [list(g)] *)
Fixpoint iterate {A} (g : generator A) : result (list A) :=
  match g with
  | [] => Ret []
  | x :: g' => do a <- x; do l <- iterate g'; Ret (a :: l)
  end.

(** The exact ceiling of the quotient [a / b] for [b <> 0], in whole
    numbers.  The program does not compute it: it is what the double
    precision computation of [idss] is compared with. *)
Definition ceil_div (a b : Z) : Z := (- ((- a) / b))%Z.

(** ** Double precision arithmetic, as far as [idss] uses it

    Every finite double is a whole multiple of 2^-1074, so a double is the
    whole number of such units it holds (the sign of zero is dropped: no
    operation below tells -0.0 from 0.0).  Results are rounded to the
    nearest double, ties to the even mantissa, as IEEE 754 binary64 does. *)
Module Float64.

Definition t := Z.

(** 1.0, and the first magnitude that is out of range (2^1024). *)
Definition one : Z := (2 ^ 1074)%Z.
Definition inf : Z := (2 ^ 2098)%Z.

(** The integer nearest to [n / d] (for [0 <= n], [0 < d]), ties to even. *)
Definition nearest_even (n d : Z) : Z :=
  (let m := n / d in
   let r := n mod d in
   if 2 * r <? d then m
   else if d <? 2 * r then m + 1
   else if Z.even m then m else m + 1)%Z.

(** The double nearest to [n / d] units (for [0 <= n], [0 < d]): a quotient
    in the binade of 2^l units is rounded to a multiple of 2^(l - 52)
    units, and to whole units below 2^53 units (the subnormal numbers and
    the first binade of normal ones). *)
Definition round (n d : Z) : Z :=
  (let u := Z.max (Z.log2 (n / d) - 52) 0 in
   nearest_even n (d * 2 ^ u) * 2 ^ u)%Z.

(** [a / b] on two Python ints: the correctly rounded quotient. *)
Definition int_truediv (a b : Z) : result t :=
  if (b =? 0)%Z then Raise (Exc ZeroDivisionError "division by zero")
  else
    let m := round (Z.abs a * one) (Z.abs b) in
    if (inf <=? m)%Z
    then Raise (Exc OverflowError "integer division result too large for a float")
    else Ret (Z.sgn a * Z.sgn b * m)%Z.

(** [x / 10] on a float: 10 converts to 10.0 exactly, and the quotient is
    smaller in magnitude than [x], so it is in range. *)
Definition div_by_ten (x : t) : t := (Z.sgn x * round (Z.abs x) 10)%Z.

(** [int(np.ceil(x))] *)
Definition ceil (x : t) : Z := (- ((- x) / one))%Z.

End Float64.

Module PooledCaller.

Definition queued := (nat * command * list pyval * kwargs)%type.

(** The object's attributes.  Job dicts are shared between [_pid2job] and
    [_log]: [_log] holds the objects, in creation order, and [_pid2job]
    holds references (positions in [_log]).  The last two fields are the
    environment: [workers] are the callable workers that have not yet
    pushed (start number and what their wrapper puts), [clock] is the
    current time. *)
Record t := {
  pool_size : Z;
  ps : list proc;
  cmd_queue : list queued;
  _n_cmds : nat;
  _idx2pid : gmap nat nat;
  _pid2job : list (nat * nat);
  _log : list Job;
  res_queue : list res_entry;
  workers : list (nat * list res_entry);
  clock : nat
}.

Definition __init__ (w : World) (pool_size : option Z) : t :=
  {| pool_size := match pool_size with
                  | None => (Z.of_nat (os_cpu_count w) * 3 / 4)%Z
                  | Some k => k
                  end;
     ps := [];
     cmd_queue := [];
     _n_cmds := 0;
     _idx2pid := ∅;
     _pid2job := [];
     _log := [];
     res_queue := [];
     workers := [];
     clock := 0 |}.

Definition set_pool_size (k : Z) (s : t) : t :=
  {| pool_size := k; ps := ps s; cmd_queue := cmd_queue s; _n_cmds := _n_cmds s;
     _idx2pid := _idx2pid s; _pid2job := _pid2job s; _log := _log s;
     res_queue := res_queue s; workers := workers s; clock := clock s |}.
Definition set_ps (l : list proc) (s : t) : t :=
  {| pool_size := pool_size s; ps := l; cmd_queue := cmd_queue s; _n_cmds := _n_cmds s;
     _idx2pid := _idx2pid s; _pid2job := _pid2job s; _log := _log s;
     res_queue := res_queue s; workers := workers s; clock := clock s |}.
Definition set_cmd_queue (q : list queued) (s : t) : t :=
  {| pool_size := pool_size s; ps := ps s; cmd_queue := q; _n_cmds := _n_cmds s;
     _idx2pid := _idx2pid s; _pid2job := _pid2job s; _log := _log s;
     res_queue := res_queue s; workers := workers s; clock := clock s |}.
Definition set_n_cmds (n : nat) (s : t) : t :=
  {| pool_size := pool_size s; ps := ps s; cmd_queue := cmd_queue s; _n_cmds := n;
     _idx2pid := _idx2pid s; _pid2job := _pid2job s; _log := _log s;
     res_queue := res_queue s; workers := workers s; clock := clock s |}.
Definition set_idx2pid (m : gmap nat nat) (s : t) : t :=
  {| pool_size := pool_size s; ps := ps s; cmd_queue := cmd_queue s; _n_cmds := _n_cmds s;
     _idx2pid := m; _pid2job := _pid2job s; _log := _log s;
     res_queue := res_queue s; workers := workers s; clock := clock s |}.
Definition set_pid2job (d : list (nat * nat)) (s : t) : t :=
  {| pool_size := pool_size s; ps := ps s; cmd_queue := cmd_queue s; _n_cmds := _n_cmds s;
     _idx2pid := _idx2pid s; _pid2job := d; _log := _log s;
     res_queue := res_queue s; workers := workers s; clock := clock s |}.
Definition set_log (l : list Job) (s : t) : t :=
  {| pool_size := pool_size s; ps := ps s; cmd_queue := cmd_queue s; _n_cmds := _n_cmds s;
     _idx2pid := _idx2pid s; _pid2job := _pid2job s; _log := l;
     res_queue := res_queue s; workers := workers s; clock := clock s |}.
Definition set_res_queue (q : list res_entry) (s : t) : t :=
  {| pool_size := pool_size s; ps := ps s; cmd_queue := cmd_queue s; _n_cmds := _n_cmds s;
     _idx2pid := _idx2pid s; _pid2job := _pid2job s; _log := _log s;
     res_queue := q; workers := workers s; clock := clock s |}.
Definition set_workers (l : list (nat * list res_entry)) (s : t) : t :=
  {| pool_size := pool_size s; ps := ps s; cmd_queue := cmd_queue s; _n_cmds := _n_cmds s;
     _idx2pid := _idx2pid s; _pid2job := _pid2job s; _log := _log s;
     res_queue := res_queue s; workers := l; clock := clock s |}.
Definition set_clock (c : nat) (s : t) : t :=
  {| pool_size := pool_size s; ps := ps s; cmd_queue := cmd_queue s; _n_cmds := _n_cmds s;
     _idx2pid := _idx2pid s; _pid2job := _pid2job s; _log := _log s;
     res_queue := res_queue s; workers := workers s; clock := c |}.

(** Field updates of a job dict. *)
Definition job_finished (stop : nat) (code : Z) (unwatch : bool) (j : Job) : Job :=
  {| j_idx := j_idx j; j_cmd := j_cmd j; j_output := j_output j;
     j_start_time := j_start_time j; j_pid := j_pid j;
     j_stop_time := Some stop; j_returncode := Some code;
     j_watcher := if unwatch then false else j_watcher j |}.
Definition job_set_output (out : list string) (j : Job) : Job :=
  {| j_idx := j_idx j; j_cmd := j_cmd j; j_output := out;
     j_start_time := j_start_time j; j_pid := j_pid j;
     j_stop_time := j_stop_time j; j_returncode := j_returncode j;
     j_watcher := j_watcher j |}.

(** Mutation of the job object behind reference [r]. *)
Definition update_job (r : nat) (f : Job -> Job) (s : t) : t :=
  set_log (alter f r (_log s)) s.

(** *** [run]: queue one job *)
Definition run (self : t) (cmd : command) (args : list pyval) (kw : kwargs)
  : result t :=
  do cmd <- cmd_for_exec cmd (ShellKwargs kw);
  let self := set_cmd_queue (cmd_queue self ++ [(_n_cmds self, cmd, args, kw)]) self in
  Ret (set_n_cmds (S (_n_cmds self)) self).

(** *** [dispatch]: fill the free slots *)
Definition dispatch_guard (self : t) : bool :=
  (Z.of_nat (length (ps self)) <? pool_size self)%Z
  && (0 <? length (cmd_queue self))%nat.

(** One iteration of the [while] body. *)
Definition dispatch_body (w : World) (self : t) : result t :=
  match cmd_queue self with
  | [] => Raise (Exc IndexError "pop from empty list")
  | (idx, cmd, args, kw) :: rest =>
      let self := set_cmd_queue rest self in
      do disp <- cmd_for_disp cmd;
      let n := length (_log self) in
      do started <-
        match cmd with
        | CmdCallable f =>
            let r := _callable_wrapper idx f args kw in
            Ret ({| p_ref := n; p_pid := os_start w n; p_kind := Process;
                    p_exit := process_exitcode (wr_exit r) |},
                 set_workers (workers self ++ [(n, wr_puts r)]) self)
        | _ =>
            do pid <- os_popen w n cmd kw;
            Ret ({| p_ref := n; p_pid := pid; p_kind := Popen;
                    p_exit := os_returncode w n |}, self)
        end;
      let '(p, self) := started in
      let job := {| j_idx := idx; j_cmd := disp; j_output := [];
                    j_start_time := clock self; j_pid := p_pid p;
                    j_stop_time := None; j_returncode := None;
                    j_watcher := match p_kind p with
                                 | Popen => true
                                 | Process => false
                                 end |} in
      let self := set_ps (ps self ++ [p]) self in
      let self := set_idx2pid (<[idx := p_pid p]> (_idx2pid self)) self in
      let self := set_pid2job (dict_set (p_pid p) n (_pid2job self)) self in
      Ret (set_log (_log self ++ [job]) self)
  end.

Fixpoint dispatch_loop (fuel : nat) (w : World) (self : t) : result t :=
  match fuel with
  | 0 => Ret self
  | S fuel' =>
      if dispatch_guard self
      then do self <- dispatch_body w self; dispatch_loop fuel' w self
      else Ret self
  end.

(** Every iteration pops the queue, so its length is fuel enough. *)
Definition dispatch (w : World) (self : t) : result t :=
  dispatch_loop (length (cmd_queue self)) w self.

(** *** [_async_get_res]: take at most one item off the results channel *)
Definition _async_get_res (self : t) (res_list : list (nat * pyval))
  : result (t * list (nat * pyval)) :=
  match res_queue self with
  | [] => Ret (self, res_list)                       (* queue.Empty *)
  | res :: rest =>
      let self := set_res_queue rest self in
      let res_list := res_list ++ [(e_idx res, e_value res)] in
      match e_output res with
      | None => Ret (self, res_list)
      | Some output =>
          match _idx2pid self !! e_idx res with
          | None => Raise (Exc KeyError (str_of_nat (e_idx res)))
          | Some pid =>
              match dict_get pid (_pid2job self) with
              | None => Raise (Exc KeyError (str_of_nat pid))
              | Some r => Ret (update_job r (job_set_output output) self, res_list)
              end
          end
      end
  end.

(** *** The environment between two observations

    Workers found terminated at the current clock reading have run their
    [finally] step: their items are on the channel. *)
Definition deliver (w : World) (self : t) : t :=
  let gone := filter (fun wk => os_exited w (clock self) (fst wk) = true) (workers self) in
  let left := filter (fun wk => os_exited w (clock self) (fst wk) <> true) (workers self) in
  set_workers left (set_res_queue (res_queue self ++ concat (map snd gone)) self).

(** [time.sleep(0.1)] *)
Definition sleep (w : World) (self : t) : t :=
  deliver w (set_clock (S (clock self)) self).

(** *** Polling the workers: the body of [for p in self.ps] *)
Definition poll_one (w : World) (p : proc) (self : t) : result t :=
  match dict_get (p_pid p) (_pid2job self) with
  | None => Raise (Exc KeyError (str_of_nat (p_pid p)))
  | Some r =>
      match _log self !! r with
      | None => Raise (Exc KeyError (str_of_nat r))
      | Some job =>
          if os_exited w (clock self) (p_ref p) then
            match p_kind p with
            | Popen =>
                if j_watcher job then
                  (* joined: the watcher of p has appended its lines to its own job *)
                  let self := update_job (p_ref p)
                                (fun j => job_set_output (j_output j ++ os_lines w (p_ref p)) j) self in
                  let self := update_job r (job_finished (clock self) (p_exit p) true) self in
                  let self := set_ps (remove_proc p (ps self)) self in
                  Ret (set_res_queue
                         (res_queue self ++ [ {| e_idx := j_idx job; e_value := PyNone;
                                                 e_output := None |} ]) self)
                else Raise (Exc KeyError "'speed_up'")
            | Process =>
                let self := update_job r (job_finished (clock self) (p_exit p) false) self in
                Ret (set_ps (remove_proc p (ps self)) self)
            end
          else Ret self
      end
  end.

(** The [for] loop reads [self.ps] by position while the body removes
    from it: [i] is the iterator's position. *)
Fixpoint poll_from (fuel : nat) (w : World) (i : nat) (self : t) : result t :=
  match fuel with
  | 0 => Ret self
  | S fuel' =>
      match ps self !! i with
      | None => Ret self
      | Some p => do self <- poll_one w p self; poll_from fuel' w (S i) self
      end
  end.

Definition poll (w : World) (self : t) : result t :=
  poll_from (length (ps self)) w 0 self.

(** *** [wait] *)
Definition wait_guard (self : t) : bool :=
  (0 <? length (ps self))%nat || (0 <? length (cmd_queue self))%nat.

(** One iteration of the [while] body. *)
Definition wait_body (w : World) (self : t) (ress : list (nat * pyval))
  : result (t * list (nat * pyval)) :=
  do self <- dispatch w self;
  do self <- poll w (deliver w self);
  let self := sleep w self in
  _async_get_res self ress.

Fixpoint wait_loop (fuel : nat) (w : World) (self : t) (ress : list (nat * pyval))
  : option (result (t * list (nat * pyval))) :=
  if wait_guard self then
    match fuel with
    | 0 => None
    | S fuel' =>
        match wait_body w self ress with
        | Ret (self, ress) => wait_loop fuel' w self ress
        | Raise e => Some (Raise e)
        end
    end
  else Some (Ret (self, ress)).

Inductive wait_return :=
| Values (ress : list pyval)
| Codes (codes : list Z)
| ValuesJobs (ress : list pyval) (jobs : list Job)
| CodesJobs (codes : list Z) (jobs : list Job).

(** [self._pid2job.values()], dereferenced. *)
Fixpoint deref (log : list Job) (refs : list nat) : result (list Job) :=
  match refs with
  | [] => Ret []
  | r :: refs' =>
      match log !! r with
      | None => Raise (Exc KeyError (str_of_nat r))
      | Some j => do js <- deref log refs'; Ret (j :: js)
      end
  end.

(** What [wait] does once the loop has ended. *)
Definition wait_finish (self : t) (ress : list (nat * pyval)) (old_size : Z)
    (pool_size : option Z) (return_codes return_jobs : bool)
  : result (wait_return * t) :=
  do got <- _async_get_res self ress;
  let '(self, ress) := got in
  let ress := map snd (sorted fst ress) in
  do jobs <- deref (_log self) (dict_values (_pid2job self));
  let jobs := sorted j_idx jobs in
  do codes <- returncodes jobs;
  let self := set_n_cmds 0 self in
  let self := set_idx2pid ∅ self in
  let self := set_pid2job [] self in
  let self := match pool_size with
              | Some _ => set_pool_size old_size self
              | None => self
              end in
  Ret (if return_codes
       then (if return_jobs then CodesJobs codes jobs else Codes codes)
       else (if return_jobs then ValuesJobs ress jobs else Values ress),
       self).

Definition wait (fuel : nat) (w : World) (self : t) (pool_size : option Z)
    (return_codes return_jobs : bool) : option (result (wait_return * t)) :=
  let old_size := PooledCaller.pool_size self in
  let self := match pool_size with
              | Some k => set_pool_size k self
              | None => self
              end in
  match wait_loop fuel w self [] with
  | None => None
  | Some (Raise e) => Some (Raise e)
  | Some (Ret (self, ress)) =>
      Some (wait_finish self ress old_size pool_size return_codes return_jobs)
  end.

(** *** [all_successful] *)
Definition all_successful (self : t) (error_pattern : option regex)
    (jobs : option (list Job)) : result bool :=
  let jobs := match jobs with
              | None => _log self
              | Some jobs => jobs
              end in
  all_successful_of error_pattern jobs.

(** *** [idss]: index ranges for batching

    [int(np.ceil(total / self.pool_size / 10))] is computed as Python does:
    two divisions in double precision, each rounded, then the ceiling.
    The iterable of the outermost [for] of a generator expression is
    evaluated when the expression is, so a zero step raises in [idss]
    itself; the element expression runs at each [next]. *)
Definition idss (self : t) (total : Z) (batch_size : option Z)
  : result (generator pyrange) :=
  do batch_size <-
    match batch_size with
    | None =>
        do q <- Float64.int_truediv total (pool_size self);
        Ret (Float64.ceil (Float64.div_by_ten q))
    | Some b => Ret b
    end;
  do ks <- mk_range 0 total batch_size;
  Ret (map (fun k => mk_range k (Z.min (k + batch_size) total) 1) (range_elems ks)).

(** *** The states a call goes through

    [dispatch_states], [poll_states] and [wait_loop_states] list the pool
    after every iteration of the corresponding loop (and, for [wait],
    after every step of its body); they are used to state what holds at
    every point of a call. *)
Fixpoint dispatch_states (fuel : nat) (w : World) (self : t) : list t :=
  match fuel with
  | 0 => []
  | S fuel' =>
      if dispatch_guard self then
        match dispatch_body w self with
        | Ret self' => self' :: dispatch_states fuel' w self'
        | Raise _ => []
        end
      else []
  end.

Fixpoint poll_states (fuel : nat) (w : World) (i : nat) (self : t) : list t :=
  match fuel with
  | 0 => []
  | S fuel' =>
      match ps self !! i with
      | None => []
      | Some p =>
          match poll_one w p self with
          | Ret self' => self' :: poll_states fuel' w (S i) self'
          | Raise _ => []
          end
      end
  end.

Definition wait_body_states (w : World) (self : t) (ress : list (nat * pyval))
  : list t :=
  dispatch_states (length (cmd_queue self)) w self ++
  match dispatch w self with
  | Raise _ => []
  | Ret s1 =>
      deliver w s1 :: poll_states (length (ps (deliver w s1))) w 0 (deliver w s1) ++
      match poll w (deliver w s1) with
      | Raise _ => []
      | Ret s2 =>
          sleep w s2 ::
          match _async_get_res (sleep w s2) ress with
          | Ret (s3, _) => [s3]
          | Raise _ => []
          end
      end
  end.

Fixpoint wait_loop_states (fuel : nat) (w : World) (self : t)
    (ress : list (nat * pyval)) : list t :=
  if wait_guard self then
    match fuel with
    | 0 => []
    | S fuel' =>
        wait_body_states w self ress ++
        match wait_body w self ress with
        | Ret (self', ress') => wait_loop_states fuel' w self' ress'
        | Raise _ => []
        end
    end
  else [].

(** A batch of submissions: [run(cmd, *args, **kwargs)] for each, in order. *)
Fixpoint run_all (self : t) (batch : list (command * list pyval * kwargs))
  : result t :=
  match batch with
  | [] => Ret self
  | (cmd, args, kw) :: batch' =>
      do self <- run self cmd args kw; run_all self batch'
  end.

Definition queued_idx (q : queued) : nat := fst (fst (fst q)).

(** The running set fits the pool. *)
Definition within_pool (self : t) : Prop :=
  (Z.of_nat (length (ps self)) <= pool_size self)%Z.

(** An operation that starts nothing: pool size, queue and the indices
    of the history stay, the running set does not grow. *)
Record quiet (s s' : t) : Prop := {
  quiet_pool_size : pool_size s' = pool_size s;
  quiet_ps : length (ps s') <= length (ps s);
  quiet_queue : cmd_queue s' = cmd_queue s;
  quiet_log : map j_idx (_log s') = map j_idx (_log s)
}.

(** Any run of operations: the pool size stays and jobs only move from
    the head of the queue to the end of the history. *)
Record moved (s s' : t) : Prop := {
  moved_pool_size : pool_size s' = pool_size s;
  moved_jobs : map j_idx (_log s') ++ map queued_idx (cmd_queue s')
               = map j_idx (_log s) ++ map queued_idx (cmd_queue s)
}.

(** Across any run of operations the pool stays within its size. *)
Definition steady (s s' : t) : Prop :=
  moved s s' /\ (within_pool s -> within_pool s').

End PooledCaller.

(** ** Vocabulary of the specification *)

(** A token the display form renders unambiguously: not empty, and free of
    blanks, quotes and backslashes. *)
Fixpoint plain_chars (s : string) : bool :=
  match s with
  | EmptyString => true
  | String c s' =>
      negb (Shlex.whitespace c) && negb (Shlex.quotes c) && negb (Shlex.escape c)
      && plain_chars s'
  end.

Definition plain_token (s : string) : Prop :=
  s <> EmptyString /\ plain_chars s = true.

Fixpoint lower_str (s : string) : string :=
  match s with
  | EmptyString => EmptyString
  | String c s' => String (lower c) (lower_str s')
  end.

(** The line has the word error in any letter case, or two asterisks in a
    row. *)
Definition flags_error (line : string) : Prop :=
  exists pre mid post,
    line = pre +:+ mid +:+ post /\ (lower_str mid = "error" \/ mid = "**").

(** [s] occurs in [t]. *)
Definition occurs_in (s t : string) : Prop :=
  exists pre post, t = pre +:+ s +:+ post.

(** The integers [a], [a+1], ..., [b-1]. *)
Definition interval (a b : Z) : list Z :=
  map (fun i => (a + Z.of_nat i)%Z) (seq 0 (Z.to_nat (b - a))).

(** The ranges [idss] yields for batch size [b]. *)
Definition batches (total b : Z) : list pyrange :=
  map (fun i => {| r_start := Z.of_nat i * b;
                   r_stop := Z.min (Z.of_nat i * b + b) total;
                   r_step := 1 |})
      (seq 0 (Z.to_nat ((total - 1) / b + 1))).

(** ** Sample runs *)
Module Sample.
Import PooledCaller.

(** Every process is still running when first polled and is found
    terminated 0.1 s later; external commands print one line and
    return 0. *)
Definition world : World :=
  {| os_cpu_count := 8;
     os_popen := fun n _ _ => Ret (1000 + n);
     os_start := fun n => 2000 + n;
     os_lines := fun _ => ["done" +:+ NL];
     os_returncode := fun _ => 0%Z;
     os_exited := fun clock _ => (1 <=? clock)%nat |}.

(** Every process has already terminated when first polled. *)
Definition instant_world : World :=
  {| os_cpu_count := 8;
     os_popen := fun n _ _ => Ret (1000 + n);
     os_start := fun n => 2000 + n;
     os_lines := fun _ => ["done" +:+ NL];
     os_returncode := fun _ => 0%Z;
     os_exited := fun _ _ => true |}.

Definition echo : command := CmdStr "echo done".

Definition pool_of (size : Z) (cmds : list command) : t :=
  match run_all (__init__ world (Some size)) (map (fun c => (c, [], [])) cmds) with
  | Ret self => self
  | Raise _ => __init__ world (Some size)
  end.

(** A pool of five slots with five commands queued. *)
Definition five_commands : t := pool_of 5 (repeat echo 5).

(** A callable that returns its argument. *)
Definition ident (k : Z) : callable :=
  {| fn_name := "ident";
     fn_call := fun _ _ =>
       {| b_stdout := EmptyString; b_stderr := EmptyString; b_result := Ret (PyInt k) |} |}.

Definition five_callables : t :=
  pool_of 5 (map (fun k => CmdCallable (ident k)) [0; 1; 2; 3; 4]%Z).

(** A pool of two slots with three commands queued. *)
Definition three_commands : t := pool_of 2 (repeat echo 3).

(** A callable that prints and then raises [ValueError('bad input')]. *)
Definition boom : callable :=
  {| fn_name := "boom";
     fn_call := fun _ _ =>
       {| b_stdout := "working" +:+ NL;
          b_stderr := EmptyString;
          b_result := Raise (Exc ValueError "bad input") |} |}.

(** A command that exits with status 2. *)
Definition failing_popen : popen_t :=
  fun _ => Ret {| ch_pid := 77; ch_lines := [Encoded ("no such file" +:+ NL)];
                  ch_returncode := 2; ch_duration := 3 |}.

(** A command that prints a byte that is not UTF-8 and exits with
    status 0. *)
Definition garbled_popen : popen_t :=
  fun _ => Ret {| ch_pid := 78;
                  ch_lines := [Encoded ("start" +:+ NL);
                               Undecodable "'utf-8' codec can't decode byte 0xff"];
                  ch_returncode := 0; ch_duration := 1 |}.

Definition finished_job (idx : nat) (code : Z) (out : list string) : Job :=
  {| j_idx := idx; j_cmd := echo; j_output := out; j_start_time := 0;
     j_pid := 1000 + idx; j_stop_time := Some 1; j_returncode := Some code;
     j_watcher := false |}.
End Sample.

(** ** The output watcher and the call interface *)

(** One run of [_async_reader]: what it appended to the job's output list,
    what it printed on either stream, how often it slept, and the fault
    that ended the thread, if one did. *)
Record reader_run := {
  rd_output : list string;
  rd_stderr : string;
  rd_stdout : string;
  rd_sleeps : nat;
  rd_fault : option exn
}.

Definition ESC : ascii := ascii_of_nat 27.

(** [line.startswith('*') or line.startswith('\x1b[7m')] *)
Definition severe (line : string) : bool :=
  String.prefix "*" line || String.prefix (String ESC "[7m") line.

(** [_async_reader]: [f] lists the bytes that the successive [readline]
    calls return before the end of the stream (where they return the empty
    bytes); [speed_up n] says whether the event is set after the n-th
    line; [acc] holds the output list and what was printed so far.  A line
    that does not decode ends the thread with the fault. *)
Fixpoint _async_reader (verbose : Z) (idx : nat) (f : list rawline)
    (speed_up : nat -> bool) (n : nat) (acc : reader_run) : reader_run :=
  match f with
  | [] => acc
  | raw :: f' =>
      match decode_utf8 raw with
      | Raise e =>
          {| rd_output := rd_output acc; rd_stderr := rd_stderr acc;
             rd_stdout := rd_stdout acc; rd_sleeps := rd_sleeps acc;
             rd_fault := Some e |}
      | Ret line =>
          if String.eqb line EmptyString then acc
          else
            let output := rd_output acc ++ [line] in
            let err :=
              if severe line
              then rd_stderr acc +:+ ">> Something happens in job#" +:+ str_of_nat idx
                     +:+ NL +:+ line
              else rd_stderr acc in
            let out :=
              if severe line then rd_stdout acc
              else if (1 <? verbose)%Z then rd_stdout acc +:+ line
              else rd_stdout acc in
            let sleeps := if speed_up n then rd_sleeps acc else S (rd_sleeps acc) in
            _async_reader verbose idx f' speed_up (S n)
              {| rd_output := output; rd_stderr := err; rd_stdout := out;
                 rd_sleeps := sleeps; rd_fault := rd_fault acc |}
      end
  end.

(** The reader as [dispatch] starts it: on the job's empty output list. *)
Definition watch (verbose : Z) (idx : nat) (f : list rawline)
    (speed_up : nat -> bool) : reader_run :=
  _async_reader verbose idx f speed_up 0
    {| rd_output := []; rd_stderr := EmptyString; rd_stdout := EmptyString;
       rd_sleeps := 0; rd_fault := None |}.

(** The lines a stream delivers to its reader: its reads, decoded, up to
    the first one that is empty or does not decode. *)
Fixpoint stream_lines (f : list rawline) : list string :=
  match f with
  | [] => []
  | Encoded line :: f' =>
      if String.eqb line EmptyString then [] else line :: stream_lines f'
  | Undecodable _ :: _ => []
  end.

(** The fault of the first read that does not decode, if one comes before
    the end of the stream. *)
Fixpoint stream_fault (f : list rawline) : option exn :=
  match f with
  | [] => None
  | Encoded line :: f' =>
      if String.eqb line EmptyString then None else stream_fault f'
  | Undecodable reason :: _ => Some (Exc UnicodeDecodeError reason)
  end.

(** What the watcher prints on the error stream for these lines: a banner
    and the line, for each severe line. *)
Definition echoed (idx : nat) (lines : list string) : string :=
  String.concat EmptyString
    (map (fun line => ">> Something happens in job#" +:+ str_of_nat idx +:+ NL +:+ line)
         (filter (fun line => severe line = true) lines)).

(** What it prints on the output stream: the other lines, when verbose. *)
Definition shown (verbose : Z) (lines : list string) : string :=
  if (1 <? verbose)%Z
  then String.concat EmptyString (filter (fun line => severe line <> true) lines)
  else EmptyString.

(** [PooledCaller.__call__]: running the generator performs its steps on
    the pool (in the documented use each step is a [run]); the items are
    only counted, then [wait()] is called and its result dropped. *)
Fixpoint consume (self : PooledCaller.t)
    (job_generator : list (PooledCaller.t -> result PooledCaller.t))
  : result (PooledCaller.t * nat) :=
  match job_generator with
  | [] => Ret (self, 0)
  | step :: rest =>
      do self <- step self;
      do r <- consume self rest;
      Ret (fst r, S (snd r))
  end.

Definition __call__ (fuel : nat) (w : World) (self : PooledCaller.t)
    (job_generator : list (PooledCaller.t -> result PooledCaller.t))
  : option (result PooledCaller.t) :=
  match consume self job_generator with
  | Raise e => Some (Raise e)
  | Ret (self, n_batches) =>
      match PooledCaller.wait fuel w self None false false with
      | None => None
      | Some (Raise e) => Some (Raise e)
      | Some (Ret (_, self)) => Some (Ret self)
      end
  end.

(** The generator [(pc.run(cmd, *args, **kw) for ... )]. *)
Definition submissions (batch : list (command * list pyval * kwargs))
  : list (PooledCaller.t -> result PooledCaller.t) :=
  map (fun sub self => PooledCaller.run self (fst (fst sub)) (snd (fst sub)) (snd sub))
      batch.

(** ** Further vocabulary *)

(** Free text without quotes and backslashes. *)
Fixpoint quote_free (s : string) : bool :=
  match s with
  | EmptyString => true
  | String c s' => negb (Shlex.quotes c) && negb (Shlex.escape c) && quote_free s'
  end.

(** A text without line boundaries. *)
Fixpoint one_line (s : string) : bool :=
  match s with
  | EmptyString => true
  | String c s' => negb (linebreak c) && one_line s'
  end.

(** The bookkeeping of the current batch: the queue holds the last
    submitted indices in order, and the registered indices are exactly the
    ones before them. *)
Definition batch_ok (s : PooledCaller.t) : Prop :=
  let queued := length (PooledCaller.cmd_queue s) in
  queued <= PooledCaller._n_cmds s
  /\ map PooledCaller.queued_idx (PooledCaller.cmd_queue s)
     = seq (PooledCaller._n_cmds s - queued) queued
  /\ forall i, is_Some (PooledCaller._idx2pid s !! i)
               <-> i < PooledCaller._n_cmds s - queued.

(** Jobs still to be finished: running or queued. *)
Definition load (s : PooledCaller.t) : nat :=
  length (PooledCaller.ps s) + length (PooledCaller.cmd_queue s).

(** A world in which every process has terminated from time [T] on. *)
Definition all_exit_by (w : World) (T : nat) : Prop :=
  forall clock n, T <= clock -> os_exited w clock n = true.

(** An operation that leaves the batch's bookkeeping and the clock alone. *)
Record same_batch (s s' : PooledCaller.t) : Prop := {
  same_n_cmds : PooledCaller._n_cmds s' = PooledCaller._n_cmds s;
  same_idx2pid : PooledCaller._idx2pid s' = PooledCaller._idx2pid s;
  same_pid2job : PooledCaller._pid2job s' = PooledCaller._pid2job s;
  same_queue : PooledCaller.cmd_queue s' = PooledCaller.cmd_queue s;
  same_log_length : length (PooledCaller._log s') = length (PooledCaller._log s)
}.

(** More sample data. *)
Module Sample2.
Import PooledCaller.

(** A host with a single CPU, on which the default pool size is 0. *)
Definition one_cpu_world : World :=
  {| os_cpu_count := 1;
     os_popen := fun n _ _ => Ret (1000 + n);
     os_start := fun n => 2000 + n;
     os_lines := fun _ => [];
     os_returncode := fun _ => 0%Z;
     os_exited := fun _ _ => true |}.

Definition default_pool_one_cpu : t :=
  match run (__init__ one_cpu_world None) Sample.echo [] [] with
  | Ret self => self
  | Raise _ => __init__ one_cpu_world None
  end.

(** The pool of [Sample.three_commands] after one [dispatch]. *)
Definition three_dispatched : t :=
  match dispatch Sample.world Sample.three_commands with
  | Ret self => self
  | Raise _ => Sample.three_commands
  end.

(** A pool of three slots after [dispatch()] has started three commands. *)
Definition three_running : t :=
  match dispatch Sample.world (Sample.pool_of 3 (repeat Sample.echo 3)) with
  | Ret self => self
  | Raise _ => Sample.pool_of 3 (repeat Sample.echo 3)
  end.
End Sample2.

(** * Properties *)

(** ** Strings *)

Lemma sapp_cons c s t : String c s +:+ t = String c (s +:+ t).
Proof. reflexivity. Qed.

Lemma sapp_nil_l s : EmptyString +:+ s = s.
Proof. reflexivity. Qed.

Lemma sapp_nil_r s : s +:+ EmptyString = s.
Proof. induction s as [|c s IH]; [reflexivity|]. by rewrite sapp_cons, IH. Qed.

Lemma sapp_assoc s t u : (s +:+ t) +:+ u = s +:+ t +:+ u.
Proof. induction s as [|c s IH]; [reflexivity|]. by rewrite !sapp_cons, IH. Qed.

Lemma snoc_app tok c s : snoc tok c +:+ s = tok +:+ String c s.
Proof. unfold snoc. by rewrite sapp_assoc. Qed.

Lemma prefix_app s t : String.prefix s (s +:+ t) = true.
Proof.
  induction s as [|c s IH]; [by destruct t|].
  rewrite sapp_cons. simpl. destruct (ascii_dec c c); [exact IH | done].
Qed.

Lemma prefix_split s t : String.prefix s t = true -> exists u, t = s +:+ u.
Proof.
  revert t. induction s as [|c s IH]; intros t H.
  - by exists t.
  - destruct t as [|d t]; [done|]. simpl in H.
    destruct (ascii_dec c d) as [->|]; [|done].
    destruct (IH _ H) as [u ->]. by exists u.
Qed.

Lemma contains_unfold s t :
  contains s t =
  if String.prefix s t then true
  else match t with
       | EmptyString => false
       | String _ t' => contains s t'
       end.
Proof. by destruct t. Qed.

Lemma contains_occurs s t : contains s t = true <-> occurs_in s t.
Proof.
  split.
  - induction t as [|c t IH]; rewrite contains_unfold.
    + destruct (String.prefix s EmptyString) eqn:E; intros H; [|done].
      destruct (prefix_split _ _ E) as [u ->]. by exists EmptyString, u.
    + destruct (String.prefix s (String c t)) eqn:E; intros H.
      * destruct (prefix_split _ _ E) as [u ->]. by exists EmptyString, u.
      * destruct (IH H) as (pre & post & ->). by exists (String c pre), post.
  - intros (pre & post & ->). induction pre as [|c pre IH].
    + rewrite sapp_nil_l, contains_unfold. by rewrite prefix_app.
    + rewrite sapp_cons, contains_unfold. rewrite IH.
      by destruct (String.prefix s (String c (pre +:+ s +:+ post))).
Qed.

(** ** The library functions on small inputs *)

Example split_quoted :
  Shlex.split "echo  'a b'  c\ d" = Ret ["echo"; "a b"; "c d"].
Proof. reflexivity. Qed.

Example split_escape_in_double_quotes :
  Shlex.split (String DQUOTE ("a\n\\" +:+ String DQUOTE EmptyString))
  = Ret ["a\n\"].
Proof. reflexivity. Qed.

Example split_empty_quotes : Shlex.split "a '' b" = Ret ["a"; EmptyString; "b"].
Proof. reflexivity. Qed.

Example split_unbalanced :
  Shlex.split "echo 'a" = Raise (Exc ValueError "No closing quotation").
Proof. reflexivity. Qed.

Example splitlines_keeps_ends :
  splitlines ("ab" +:+ NL +:+ "cd" +:+ String CR NL +:+ NL +:+ "e")
  = ["ab" +:+ NL; "cd" +:+ String CR NL; NL; "e"].
Proof. reflexivity. Qed.

Example error_pattern_matches :
  default_error_pattern "+++ An ERROR occurred" = true
  /\ default_error_pattern "** something" = true
  /\ default_error_pattern "a * b * c, no err or" = false.
Proof. repeat split. Qed.

Example sorted_is_stable :
  sorted fst [(2, "a"); (0, "b"); (2, "c"); (1, "d")]
  = [(0, "b"); (1, "d"); (2, "a"); (2, "c")].
Proof. reflexivity. Qed.

Example range_with_step :
  range_elems {| r_start := 0; r_stop := 10; r_step := 4 |} = [0; 4; 8]%Z
  /\ range_elems {| r_start := 5; r_stop := 0; r_step := -2 |} = [5; 3; 1]%Z.
Proof. by split. Qed.

(** ** The tokenizer on plain tokens *)

Lemma lex_word_plain t : plain_chars t = true ->
  forall s tok q, Shlex.lex (t +:+ s) Shlex.Word tok q = Shlex.lex s Shlex.Word (tok +:+ t) q.
Proof.
  induction t as [|c t IH]; intros Hp s tok q.
  - by rewrite sapp_nil_l, sapp_nil_r.
  - simpl in Hp. rewrite !andb_true_iff, !negb_true_iff in Hp.
    destruct Hp as [[[Hw Hq] He] Ht].
    rewrite sapp_cons. simpl. rewrite Hw, Hq, He.
    rewrite (IH Ht). by rewrite snoc_app.
Qed.

Lemma lex_blank_plain t : plain_token t ->
  forall s, Shlex.lex (t +:+ s) Shlex.Blank EmptyString false = Shlex.lex s Shlex.Word t false.
Proof.
  intros [Hne Hp] s. destruct t as [|c t]; [done|].
  simpl in Hp. rewrite !andb_true_iff, !negb_true_iff in Hp.
  destruct Hp as [[[Hw Hq] He] Ht].
  rewrite sapp_cons. simpl. rewrite Hw, Hq, He.
  by rewrite (lex_word_plain t Ht).
Qed.

Lemma emit_token t q rest : t <> EmptyString -> Shlex.emit t q rest = t :: rest.
Proof.
  intros Hne. unfold Shlex.emit.
  destruct (String.eqb_spec t EmptyString); [done|]. by rewrite andb_false_r.
Qed.

Lemma lex_word_space tok s : tok <> EmptyString ->
  Shlex.lex (String " " s) Shlex.Word tok false =
  do toks <- Shlex.lex s Shlex.Blank EmptyString false; Ret (tok :: toks).
Proof.
  intros Hne. simpl. destruct (String.eqb_spec tok EmptyString) as [|_]; [done|]. simpl.
  destruct (Shlex.lex s Shlex.Blank EmptyString false); simpl; [|done].
  by rewrite emit_token.
Qed.

Lemma split_join_plain (l : list string) :
  Forall plain_token l -> Shlex.split (String.concat " " l) = Ret l.
Proof.
  unfold Shlex.split. induction l as [|t l IH]; intros Hall; [reflexivity|].
  inversion Hall as [|? ? Ht Hl]; subst.
  destruct l as [|t2 l].
  - simpl. rewrite <- (sapp_nil_r t) at 1. rewrite (lex_blank_plain t Ht).
    simpl. by rewrite emit_token by apply Ht.
  - change (String.concat " " (t :: t2 :: l))
      with (t +:+ String " " (String.concat " " (t2 :: l))).
    rewrite (lex_blank_plain t Ht), lex_word_space by apply Ht.
    by rewrite (IH Hl).
Qed.

(** ** C6: normalisation round trip *)

(** C6, as stated, fails: the display form of an argument list joins the
    tokens with spaces and quotes nothing, so a token with a blank comes
    back as two tokens. *)
Lemma display_round_trip_fails :
  cmd_for_exec (CmdStr "echo 'a b'") (ShellFlag false) = Ret (CmdList ["echo"; "a b"])
  /\ redisplay ["echo"; "a b"] = Ret (CmdList ["echo"; "a"; "b"])
  /\ ~ (forall l, redisplay l = Ret (CmdList l)).
Proof.
  split; [reflexivity|]. split; [reflexivity|].
  intros H. specialize (H ["echo"; "a b"]). vm_compute in H. discriminate H.
Qed.

(** C6, amended: for an argument list of plain tokens (not empty, without
    blanks, quotes or backslashes) joining with spaces and splitting again
    gives the list back; and [cmd_for_exec] with [shell=False] leaves its
    own result unchanged, whatever command it started from. *)
Theorem display_round_trip_plain (l : list string) (Hplain : Forall plain_token l) :
  redisplay l = Ret (CmdList l)
  /\ forall cmd cmd', cmd_for_exec cmd (ShellFlag false) = Ret cmd' ->
       cmd_for_exec cmd' (ShellFlag false) = Ret cmd'.
Proof.
  split.
  - unfold redisplay. simpl. by rewrite (split_join_plain l Hplain).
  - intros cmd cmd' H. destruct cmd as [s|l'|f]; simpl in H.
    + destruct (Shlex.split s); simpl in H; [|done].
      by injection H as <-.
    + by injection H as <-.
    + by injection H as <-.
Qed.

Lemma display_round_trip_plain_witness :
  Forall plain_token ["ls"; "-l"; "/tmp"]
  /\ redisplay ["ls"; "-l"; "/tmp"] = Ret (CmdList ["ls"; "-l"; "/tmp"]).
Proof.
  assert (H : Forall plain_token ["ls"; "-l"; "/tmp"]).
  { repeat constructor; discriminate. }
  split; [exact H|]. exact (proj1 (display_round_trip_plain _ H)).
Defined.

(** ** C7: the single-command wrapper *)

Lemma read_output_encoded (texts output : list string) :
  read_output (map Encoded texts) output = Ret (output ++ texts).
Proof.
  revert output. induction texts as [|text texts IH]; intros output; simpl.
  - by rewrite app_nil_r.
  - by rewrite IH, <- app_assoc.
Qed.

(** C7, as stated, fails: a command that prints a byte that is not UTF-8
    and exits with status 0 makes [run] with [check=True] raise (a
    [UnicodeDecodeError] from the reading loop) although the return code
    is zero. *)
Lemma run_faults_on_return_code_zero :
  (exists p, Sample.garbled_popen (CmdList ["printf"; "x"]) = Ret p
             /\ ch_returncode p = 0%Z)
  /\ exists e, run Sample.garbled_popen 0 (CmdStr "printf x") true = Raise e
               /\ exn_cls e = UnicodeDecodeError.
Proof.
  split.
  - eexists. split; reflexivity.
  - eexists. split; reflexivity.
Qed.

(** C7, amended: for a command line that normalises to [argv], a child
    that starts, prints only lines that are valid UTF-8 and ends with some
    return code, [run] with [check=True] raises exactly when the return
    code is not zero, the error is a [RuntimeError] whose message has the
    command line in it, and otherwise (or with [check=False]) the record
    of the run is returned. *)
Theorem run_check_raises_iff_nonzero
    (popen : popen_t) (now : nat) (cmd : command) (argv : list string) (p : child)
    (output : list string)
    (Hcmd : cmd_for_exec cmd (ShellFlag false) = Ret (CmdList argv))
    (Hrun : popen (CmdList argv) = Ret p)
    (Hdecodes : ch_lines p = map Encoded output) :
  let cmd_str := String.concat " " argv in
  let res := {| res_cmd := cmd_str; res_pid := ch_pid p;
                res_output := output; res_start_time := now;
                res_returncode := ch_returncode p;
                res_stop_time := now + ch_duration p |} in
  ((exists e, run popen now cmd true = Raise e) <-> ch_returncode p <> 0%Z)
  /\ (forall e, run popen now cmd true = Raise e ->
        exn_cls e = RuntimeError /\ occurs_in cmd_str (exn_str e))
  /\ (ch_returncode p = 0%Z -> run popen now cmd true = Ret res)
  /\ run popen now cmd false = Ret res.
Proof.
  intros cmd_str res.
  assert (Hc : forall check, run popen now cmd check =
            if negb (ch_returncode p =? 0)%Z && check
            then Raise (Exc RuntimeError (run_error_message (ch_returncode p) cmd_str))
            else Ret res).
  { intros check. unfold run. rewrite Hcmd. simpl. rewrite Hrun. simpl.
    by rewrite Hdecodes, read_output_encoded. }
  rewrite !Hc. destruct (Z.eqb_spec (ch_returncode p) 0) as [E|E]; simpl.
  - repeat split; try done. by intros [e He].
  - repeat split; try done.
    + by eexists.
    + by injection H as <-.
    + injection H as <-. simpl. unfold run_error_message.
      exists ("Error occurs when executing the following command (returncode="
                +:+ str_of_Z (ch_returncode p) +:+ "):" +:+ NL), EmptyString.
      by rewrite sapp_nil_r, !sapp_assoc.
Qed.

Lemma run_check_raises_iff_nonzero_witness :
  cmd_for_exec (CmdStr "cat  missing") (ShellFlag false) = Ret (CmdList ["cat"; "missing"])
  /\ Sample.failing_popen (CmdList ["cat"; "missing"])
     = Ret {| ch_pid := 77; ch_lines := [Encoded ("no such file" +:+ NL)];
              ch_returncode := 2; ch_duration := 3 |}
  /\ exists e, run Sample.failing_popen 0 (CmdStr "cat  missing") true = Raise e.
Proof.
  split; [reflexivity|]. split; [reflexivity|].
  apply (run_check_raises_iff_nonzero Sample.failing_popen 0 (CmdStr "cat  missing")
           ["cat"; "missing"] _ ["no such file" +:+ NL] eq_refl eq_refl eq_refl).
  discriminate.
Defined.

(** ** C3: the verdict checker *)

Lemma returncodes_ok jobs codes :
  returncodes jobs = Ret codes -> map j_returncode jobs = map Some codes.
Proof.
  revert codes. induction jobs as [|j jobs IH]; intros codes H; simpl in H.
  - by injection H as <-.
  - destruct (j_returncode j) as [c|] eqn:E; [|done].
    destruct (returncodes jobs) as [cs|]; simpl in H; [|done].
    injection H as <-. simpl. by rewrite E, (IH cs).
Qed.

Lemma returncodes_all_zero jobs :
  (exists codes, returncodes jobs = Ret codes /\ np_any codes = false)
  <-> Forall (fun j => j_returncode j = Some 0%Z) jobs.
Proof.
  induction jobs as [|j jobs IH]; simpl.
  - split; [constructor | by exists []].
  - split.
    + intros (codes & H & Hz). destruct (j_returncode j) as [c|] eqn:E; [|done].
      destruct (returncodes jobs) as [cs|] eqn:Ecs; simpl in H; [|done].
      injection H as <-. simpl in Hz. apply orb_false_iff in Hz as [Hc Hcs].
      apply negb_false_iff, Z.eqb_eq in Hc. subst c.
      constructor; [done|]. apply IH. by exists cs.
    + intros H. inversion H as [|? ? Hj Hjobs]; subst. rewrite Hj.
      apply IH in Hjobs as (cs & -> & Hz). by exists (0%Z :: cs).
Qed.

Lemma count_errors_zero pat jobs :
  count_errors pat jobs = 0
  <-> Forall (fun j => Forall (fun line => pat line = false) (j_output j)) jobs.
Proof.
  unfold count_errors. induction jobs as [|j jobs IH]; simpl.
  - split; [constructor|done].
  - rewrite Nat.eq_add_0, IH, Forall_cons. apply and_iff_compat_r.
    rewrite length_zero_iff_nil. induction (j_output j) as [|line out IHo].
    + split; [constructor|done].
    + rewrite filter_cons. destruct (decide (pat line = true)) as [E|E].
      * split; [done|]. intros H. inversion H; congruence.
      * rewrite IHo, Forall_cons. apply not_true_is_false in E. tauto.
Qed.

Lemma all_successful_of_true (pat : regex) (jobs : list Job) :
  all_successful_of (Some pat) jobs = Ret true
  <-> Forall (fun j => j_returncode j = Some 0%Z
                       /\ Forall (fun line => pat line = false) (j_output j)) jobs.
Proof.
  rewrite Forall_and, <- returncodes_all_zero, <- count_errors_zero.
  unfold all_successful_of. split.
  - destruct (returncodes jobs) as [codes|]; simpl; [|done].
    intros H. injection H as H. apply andb_true_iff in H as [Hz Hn].
    apply negb_true_iff in Hz. apply Nat.eqb_eq in Hn. eauto.
  - intros [(codes & -> & Hz) Hn]. simpl. by rewrite Hz, Hn.
Qed.

Lemma prefix_ci_split p s :
  prefix_ci p s = true ->
  exists mid post, s = mid +:+ post /\ lower_str mid = lower_str p.
Proof.
  revert s. induction p as [|a p IH]; intros s H.
  - by exists EmptyString, s.
  - destruct s as [|b s]; [done|]. simpl in H.
    apply andb_true_iff in H as [Hab Hp]. apply Ascii.eqb_eq in Hab.
    destruct (IH _ Hp) as (mid & post & -> & Hl).
    exists (String b mid), post. split; [done|]. simpl. by rewrite Hab, Hl.
Qed.

Lemma prefix_ci_app p mid post :
  lower_str mid = lower_str p -> prefix_ci p (mid +:+ post) = true.
Proof.
  revert mid. induction p as [|a p IH]; intros mid H; [done|].
  destruct mid as [|b mid]; [done|]. simpl in H. injection H as Hb Hm.
  rewrite sapp_cons. simpl. rewrite (IH _ Hm), andb_true_r.
  apply Ascii.eqb_eq. done.
Qed.

Lemma search_at_any_spec (m : string -> bool) s :
  search_at_any m s = true <-> exists pre rest, s = pre +:+ rest /\ m rest = true.
Proof.
  split.
  - induction s as [|c s IH]; simpl; intros H.
    + rewrite orb_false_r in H. by exists EmptyString, EmptyString.
    + apply orb_true_iff in H as [H|H].
      * by exists EmptyString, (String c s).
      * destruct (IH H) as (pre & rest & -> & Hm). by exists (String c pre), rest.
  - intros (pre & rest & -> & Hm). induction pre as [|c pre IH].
    + rewrite sapp_nil_l. destruct rest; simpl; by rewrite Hm.
    + rewrite sapp_cons. simpl. rewrite IH. apply orb_true_r.
Qed.

Lemma default_error_pattern_spec line :
  default_error_pattern line = true <-> flags_error line.
Proof.
  unfold default_error_pattern, flags_error. rewrite search_at_any_spec. split.
  - intros (pre & rest & -> & H). apply orb_true_iff in H as [H|H].
    + apply prefix_ci_split in H as (mid & post & -> & Hl).
      exists pre, mid, post. split; [done|]. by left.
    + apply prefix_split in H as [post ->].
      exists pre, "**", post. split; [done|]. by right.
  - intros (pre & mid & post & -> & [H| ->]).
    + exists pre, (mid +:+ post). split; [done|].
      apply orb_true_iff. left. by apply prefix_ci_app.
    + exists pre, ("**" +:+ post). split; [done|].
      apply orb_true_iff. right. apply prefix_app.
Qed.

(** C3: with the default pattern, [all_successful] returns true exactly
    when every job of the set (the whole history when no set is given) has
    return code zero and none of its output lines has the word error (in any
    letter case) or two asterisks in a row; for the empty set it returns
    true. *)
Theorem all_successful_iff_clean (self : PooledCaller.t) (jobs : option (list Job)) :
  (PooledCaller.all_successful self (Some default_error_pattern) jobs = Ret true
   <-> Forall (fun j => j_returncode j = Some 0%Z
                        /\ Forall (fun line => ~ flags_error line) (j_output j))
              (default (PooledCaller._log self) jobs))
  /\ PooledCaller.all_successful self (Some default_error_pattern) (Some []) = Ret true.
Proof.
  split; [|reflexivity].
  unfold PooledCaller.all_successful.
  replace (match jobs with Some jobs0 => jobs0 | None => PooledCaller._log self end)
    with (default (PooledCaller._log self) jobs) by by destruct jobs.
  rewrite all_successful_of_true. apply Forall_proper; [|done].
  intros j. apply and_iff_compat_l. apply Forall_proper; [|done].
  intros line. rewrite <- default_error_pattern_spec.
  by destruct (default_error_pattern line).
Qed.

(** ** C4: the callable executor *)

Lemma concat_empty_cons x l : String.concat EmptyString (x :: l) = x +:+ String.concat EmptyString l.
Proof. destruct l; simpl; [by rewrite sapp_nil_r | done]. Qed.

Lemma concat_empty_app l1 l2 :
  String.concat EmptyString (l1 ++ l2) = String.concat EmptyString l1 +:+ String.concat EmptyString l2.
Proof.
  induction l1 as [|x l1 IH]; [done|].
  rewrite <- app_comm_cons, !concat_empty_cons, IH. by rewrite sapp_assoc.
Qed.

(** The lines of a text, put together again, are the text. *)
Lemma splitlines_from_concat n : forall s cur, String.length s <= n ->
  String.concat EmptyString (splitlines_from cur s) = cur +:+ s.
Proof.
  induction n as [|n IH]; intros s cur Hn.
  - destruct s; [|simpl in Hn; lia]. simpl.
    destruct (String.eqb_spec cur EmptyString) as [->|]; [done|]. simpl. by rewrite sapp_nil_r.
  - destruct s as [|c s].
    { simpl. destruct (String.eqb_spec cur EmptyString) as [->|]; [done|]. simpl.
      by rewrite sapp_nil_r. }
    simpl in Hn. simpl. destruct (linebreak c).
    + destruct s as [|c2 s].
      * reflexivity.
      * destruct (Ascii.eqb c CR && Ascii.eqb c2 LF).
        -- rewrite concat_empty_cons, IH by (simpl in Hn; lia).
           by rewrite sapp_nil_l, !snoc_app.
        -- rewrite concat_empty_cons, IH by lia.
           by rewrite sapp_nil_l, snoc_app.
    + rewrite IH by lia. by rewrite snoc_app.
Qed.

Lemma splitlines_concat s : String.concat EmptyString (splitlines s) = s.
Proof. unfold splitlines. by rewrite (splitlines_from_concat (String.length s)). Qed.

(** C4: when the callable of job [idx] raises an [Exception], the wrapper
    appends to the error buffer a diagnostic with the job's index and the
    exception's message, the exception leaves the wrapper (so the worker
    exits with a non-zero status), and the [finally] step still puts one
    item [idx, None, output lines] on the results channel; on every way out
    of any call, exactly one item with the job's index is put, whose lines
    are the captured text and whose value is the callable's return value if
    there is one. *)
Theorem callable_fault_reported
    (idx : nat) (f : callable) (args : list pyval) (kw : kwargs) (e : exn)
    (Hraise : b_result (fn_call f args kw) = Raise e)
    (Hexc : is_Exception (exn_cls e) = true) :
  let r := _callable_wrapper idx f args kw in
  wr_err r = b_stderr (fn_call f args kw)
               +:+ ">> Error occurs in job#" +:+ str_of_nat idx +:+ NL
               +:+ "** ERROR: " +:+ exn_str e +:+ NL
  /\ occurs_in (str_of_nat idx) (wr_err r)
  /\ occurs_in (exn_str e) (wr_err r)
  /\ wr_exit r = Raise e
  /\ process_exitcode (wr_exit r) <> 0%Z
  /\ wr_puts r = [ {| e_idx := idx; e_value := PyNone;
                      e_output := Some (splitlines (wr_out r) ++ splitlines (wr_err r)) |} ]
  /\ forall f' args' kw',
       let r' := _callable_wrapper idx f' args' kw' in
       exists v lines,
         wr_puts r' = [ {| e_idx := idx; e_value := v; e_output := Some lines |} ]
         /\ String.concat EmptyString lines = wr_out r' +:+ wr_err r'
         /\ v = match b_result (fn_call f' args' kw') with
                | Ret v' => v'
                | Raise _ => PyNone
                end.
Proof.
  intros r.
  assert (Herr : wr_err r = b_stderr (fn_call f args kw)
               +:+ ">> Error occurs in job#" +:+ str_of_nat idx +:+ NL
               +:+ "** ERROR: " +:+ exn_str e +:+ NL).
  { unfold r, _callable_wrapper. rewrite Hraise, Hexc. reflexivity. }
  split; [exact Herr|]. split; [|split].
  - rewrite Herr.
    exists (b_stderr (fn_call f args kw) +:+ ">> Error occurs in job#"),
           (NL +:+ "** ERROR: " +:+ exn_str e +:+ NL).
    by rewrite !sapp_assoc.
  - rewrite Herr.
    exists (b_stderr (fn_call f args kw) +:+ ">> Error occurs in job#"
              +:+ str_of_nat idx +:+ NL +:+ "** ERROR: "), NL.
    by rewrite !sapp_assoc.
  - assert (Hstatus : process_exitcode (@Raise unit e) = 1%Z).
    { unfold process_exitcode. by destruct (exn_cls e). }
    unfold r, _callable_wrapper. rewrite Hraise, Hexc.
    split; [done|]. split; [cbn [wr_exit]; by rewrite Hstatus|]. split; [done|].
    intros f' args' kw'.
    destruct (b_result (fn_call f' args' kw')) as [v|e'];
      [|destruct (is_Exception (exn_cls e'))]; simpl;
      eexists _, _; (split; [reflexivity|]); (split; [|reflexivity]);
      by rewrite concat_empty_app, !splitlines_concat.
Qed.

Lemma callable_fault_reported_witness :
  b_result (fn_call Sample.boom [] []) = Raise (Exc ValueError "bad input")
  /\ is_Exception ValueError = true
  /\ wr_puts (_callable_wrapper 3 Sample.boom [] [])
     = [ {| e_idx := 3; e_value := PyNone;
            e_output := Some [ "working" +:+ NL;
                               ">> Error occurs in job#3" +:+ NL;
                               "** ERROR: bad input" +:+ NL ] |} ].
Proof.
  split; [reflexivity|]. split; [reflexivity|].
  exact (proj1 (proj2 (proj2 (proj2 (proj2 (proj2
    (callable_fault_reported 3 Sample.boom [] [] (Exc ValueError "bad input")
       eq_refl eq_refl))))))).
Defined.

(** ** C8 and C10: the batching helper *)

Lemma interval_nil a b : (b <= a)%Z -> interval a b = [].
Proof. intros H. unfold interval. by replace (Z.to_nat (b - a)) with 0 by lia. Qed.

Lemma interval_app a c b : (a <= c)%Z -> (c <= b)%Z ->
  interval a c ++ interval c b = interval a b.
Proof.
  intros Hac Hcb. unfold interval.
  replace (Z.to_nat (b - a)) with (Z.to_nat (c - a) + Z.to_nat (b - c)) by lia.
  rewrite seq_app, map_app. f_equal. simpl.
  replace (seq (Z.to_nat (c - a)) (Z.to_nat (b - c)))
    with (map (Nat.add (Z.to_nat (c - a))) (seq 0 (Z.to_nat (b - c)))).
  - rewrite map_map. apply map_ext. intros i. lia.
  - rewrite <- (Nat.add_0_r (Z.to_nat (c - a))) at 2. apply fmap_add_seq.
Qed.

Lemma interval_length a b : length (interval a b) = Z.to_nat (b - a).
Proof. unfold interval. by rewrite length_map, length_seq. Qed.

(** A range with step one lists an interval. *)
Lemma range_elems_unit a b :
  range_elems {| r_start := a; r_stop := b; r_step := 1 |} = interval a b.
Proof.
  unfold range_elems, range_len, interval. simpl.
  destruct (Z.ltb_spec a b).
  - rewrite Z.div_1_r. replace (Z.to_nat (b - a - 1 + 1)) with (Z.to_nat (b - a)) by lia.
    apply map_ext. intros i. lia.
  - by replace (Z.to_nat (b - a)) with 0 by lia.
Qed.

(** The exact ceiling [c] of [total / d]: [total] lies in the last [d]
    below [d * c]; it is at least one for a positive total. *)
Lemma ceil_div_bounds total d : (0 < d)%Z ->
  (d * (ceil_div total d - 1) < total <= d * ceil_div total d)%Z.
Proof.
  intros Hd. unfold ceil_div.
  pose proof (Z.div_mod (- total) d ltac:(lia)).
  pose proof (Z.mod_pos_bound (- total) d Hd). nia.
Qed.

Lemma default_batch_size_pos total pool : (1 <= pool)%Z -> (1 <= total)%Z ->
  (1 <= ceil_div total (pool * 10))%Z.
Proof. intros Hp Ht. pose proof (ceil_div_bounds total (pool * 10) ltac:(lia)). nia. Qed.

(** *** Double precision: what [idss] needs of it *)

Module Float64Facts.
Import Float64.
Local Open Scope Z_scope.

Lemma one_pos : 0 < one.
Proof. unfold one. by apply Z.pow_pos_nonneg. Qed.

Lemma one_split u : 0 <= u <= 1074 -> one = 2 ^ (1074 - u) * 2 ^ u.
Proof. intros Hu. unfold one. rewrite <- Z.pow_add_r by lia. f_equal. lia. Qed.

Lemma nearest_even_near n d : 0 <= n -> 0 < d ->
  - d <= 2 * (nearest_even n d * d - n) <= d.
Proof.
  intros Hn Hd. unfold nearest_even.
  pose proof (Z.div_mod n d ltac:(lia)) as E.
  pose proof (Z.mod_pos_bound n d Hd) as B.
  destruct (Z.ltb_spec (2 * (n mod d)) d); [nia|].
  destruct (Z.ltb_spec d (2 * (n mod d))); [nia|].
  destruct (Z.even (n / d)); nia.
Qed.

Lemma nearest_even_nonneg n d : 0 <= n -> 0 < d -> 0 <= nearest_even n d.
Proof.
  intros Hn Hd. unfold nearest_even.
  pose proof (Z.div_pos n d Hn Hd).
  repeat case_match; lia.
Qed.

Lemma nearest_even_exact k d : 0 < d -> nearest_even (k * d) d = k.
Proof.
  intros Hd. unfold nearest_even. rewrite Z.div_mul, Z.mod_mul by lia.
  by destruct (Z.ltb_spec (2 * 0) d); [|lia].
Qed.

Lemma log2_quotient n d : 0 < d -> d <= n ->
  2 ^ Z.log2 (n / d) * d <= n < 2 ^ (Z.log2 (n / d) + 1) * d.
Proof.
  intros Hd Hn.
  assert (Hq : 0 < n / d) by (apply Z.div_str_pos; lia).
  pose proof (Z.log2_spec (n / d) Hq) as [L1 L2].
  pose proof (Z.mul_div_le n d Hd).
  pose proof (Z.mul_succ_div_gt n d Hd).
  rewrite <- Z.add_1_r in L2.
  split; nia.
Qed.

Lemma round_nonneg n d : 0 <= n -> 0 < d -> 0 <= round n d.
Proof.
  intros Hn Hd. unfold round.
  set (u := Z.max _ 0).
  assert (0 < 2 ^ u) by (apply Z.pow_pos_nonneg; lia).
  pose proof (nearest_even_nonneg n (d * 2 ^ u) Hn ltac:(nia)). nia.
Qed.

(** In the normal range the quotient keeps 53 significant bits. *)
Lemma round_normal n d : 0 < d -> 2 ^ 52 * d <= n ->
  exists u, 0 <= u
    /\ round n d = nearest_even n (d * 2 ^ u) * 2 ^ u
    /\ 2 ^ 52 * (d * 2 ^ u) <= n < 2 ^ 53 * (d * 2 ^ u).
Proof.
  intros Hd Hn.
  assert (Hq : 2 ^ 52 <= n / d) by (apply Z.div_le_lower_bound; lia).
  assert (HL : 52 <= Z.log2 (n / d)) by (apply Z.log2_le_pow2; lia).
  exists (Z.log2 (n / d) - 52). split; [lia|]. split.
  - unfold round. by rewrite Z.max_l by lia.
  - pose proof (log2_quotient n d Hd ltac:(lia)) as HB.
    replace (Z.log2 (n / d) + 1) with (53 + (Z.log2 (n / d) - 52)) in HB by lia.
    replace (Z.log2 (n / d)) with (52 + (Z.log2 (n / d) - 52)) in HB at 1 by lia.
    rewrite !Z.pow_add_r in HB by lia. lia.
Qed.

Lemma ceil_unique x k : (k - 1) * one < x <= k * one -> ceil x = k.
Proof.
  intros H. pose proof one_pos. unfold ceil.
  rewrite <- (Z.div_unique (- x) one (- k) (k * one - x)); lia.
Qed.

Lemma ceil_nonpos x : x <= 0 -> ceil x <= 0.
Proof.
  intros H. pose proof one_pos. unfold ceil.
  pose proof (Z.div_pos (- x) one ltac:(lia) ltac:(lia)). lia.
Qed.

(** Two roundings of a quotient of whole numbers below 2^50 do not move
    it across a whole number. *)
Lemma default_batch_size_exact total pool :
  1 <= pool < 2 ^ 50 -> 1 <= total < 2 ^ 50 ->
  exists q, int_truediv total pool = Ret q
    /\ ceil (div_by_ten q) = ceil_div total (pool * 10).
Proof.
  intros HP HT.
  set (k := ceil_div total (pool * 10)).
  pose proof (ceil_div_bounds total (pool * 10) ltac:(lia)) as Hk. fold k in Hk.
  pose proof one_pos as Ha.
  assert (Hone : one = 2 ^ 971 * 2 ^ 103) by (by rewrite (one_split 103) by lia).
  assert (Hbig : 2 ^ 52 <= 2 ^ 971) by (apply Z.pow_le_mono_r; lia).
  set (B := 2 ^ 971) in *.
  change (2 ^ 50) with 1125899906842624 in *.
  change (2 ^ 52) with 4503599627370496 in *.
  change (2 ^ 103) with 10141204801825835211973625643008 in *.
  (* first division *)
  destruct (round_normal (total * one) pool ltac:(lia)) as (u1 & Hu1 & R1 & B1).
  { nia. }
  assert (HU1 : 0 < 2 ^ u1) by (by apply Z.pow_pos_nonneg).
  set (U1 := 2 ^ u1) in *.
  pose proof (nearest_even_near (total * one) (pool * U1) ltac:(nia) ltac:(nia)) as N1.
  set (m1 := nearest_even (total * one) (pool * U1)) in *.
  set (M1 := m1 * U1) in *.
  change (2 ^ 52) with 4503599627370496 in *.
  change (2 ^ 53) with 9007199254740992 in *.
  assert (EW : m1 * (pool * U1) = M1 * pool) by (unfold M1; ring).
  rewrite EW in N1.
  set (n1 := total * one) in *.
  set (X := pool * U1) in *.
  assert (Hn1 : one <= n1 < 1125899906842624 * one) by (unfold n1; nia).
  assert (HX : U1 <= X < 1125899906842624 * U1) by (unfold X; nia).
  assert (HM1 : 0 < M1) by nia.
  assert (HM1P : M1 <= M1 * pool) by nia.
  assert (HU1lo : 10 <= U1) by lia.
  assert (Hm1 : 4503599627370496 <= m1) by nia.
  assert (Hinf : inf = 2 ^ 1024 * one).
  { unfold inf, one. by rewrite <- Z.pow_add_r by lia. }
  assert (H1024 : 4503599627370496 <= 2 ^ 1024) by (apply (Z.pow_le_mono_r 2 52); lia).
  exists M1. split.
  { unfold int_truediv. destruct (Z.eqb_spec pool 0) as [|_]; [lia|].
    rewrite (Z.abs_eq total), (Z.abs_eq pool) by lia. fold n1. rewrite R1.
    destruct (Z.leb_spec inf M1) as [Hover|_]; [nia|].
    rewrite (Z.sgn_pos total), (Z.sgn_pos pool) by lia. f_equal. lia. }
  (* second division *)
  unfold div_by_ten. rewrite Z.sgn_pos, Z.abs_eq, Z.mul_1_l by lia.
  destruct (round_normal M1 10 ltac:(lia)) as (u2 & Hu2 & R2 & B2).
  { nia. }
  assert (HU2 : 0 < 2 ^ u2) by (by apply Z.pow_pos_nonneg).
  set (U2 := 2 ^ u2) in *.
  pose proof (nearest_even_near M1 (10 * U2) ltac:(lia) ltac:(lia)) as N2.
  set (m2 := nearest_even M1 (10 * U2)) in *.
  rewrite R2. set (M2 := m2 * U2) in *.
  change (2 ^ 52) with 4503599627370496 in *.
  change (2 ^ 53) with 9007199254740992 in *.
  assert (EV : m2 * (10 * U2) = 10 * M2) by (unfold M2; ring).
  rewrite EV in N2.
  apply ceil_unique.
  assert (N2P : - (10 * U2 * pool) <= 2 * (10 * (M2 * pool) - M1 * pool) <= 10 * U2 * pool)
    by nia.
  assert (B2P : 4503599627370496 * (10 * U2 * pool) <= M1 * pool) by nia.
  assert (Hk1 : 10 * (k * pool * one) - 10 * (pool * one) + one <= n1) by (unfold n1; nia).
  assert (Hk2 : n1 <= 10 * (k * pool * one)) by (unfold n1; nia).
  assert (Hlow : (k - 1) * one * pool < M2 * pool) by lia.
  split; [nia|].
  destruct (Z.eq_dec total (pool * 10 * k)) as [Hex|Hne].
  - (* the quotient is the whole number k: both roundings are exact *)
    assert (Hu1' : u1 < 1074).
    { apply (Z.pow_lt_mono_r_iff 2); [lia|lia|]. fold U1. change (2 ^ 1074) with one. lia. }
    pose proof (one_split u1 ltac:(lia)) as S1. fold U1 in S1.
    assert (E1 : m1 = 10 * k * 2 ^ (1074 - u1)).
    { unfold m1. replace n1 with (10 * k * 2 ^ (1074 - u1) * X).
      - apply nearest_even_exact. lia.
      - unfold n1, X. rewrite Hex, S1. ring. }
    assert (EM1 : M1 = 10 * k * one) by (unfold M1; rewrite E1, S1; ring).
    assert (Hu2' : u2 < 1074).
    { apply (Z.pow_lt_mono_r_iff 2); [lia|lia|]. fold U2. change (2 ^ 1074) with one. nia. }
    pose proof (one_split u2 ltac:(lia)) as S2. fold U2 in S2.
    assert (E2 : m2 = k * 2 ^ (1074 - u2)).
    { unfold m2. replace M1 with (k * 2 ^ (1074 - u2) * (10 * U2)).
      - apply nearest_even_exact. lia.
      - rewrite EM1, S2. ring. }
    unfold M2. rewrite E2, S2. lia.
  - assert (Hk3 : n1 <= 10 * (k * pool * one) - one) by (unfold n1; nia).
    assert (Hup : M2 * pool <= k * one * pool) by lia.
    nia.
Qed.

Lemma int_truediv_zero pool : pool <> 0 -> int_truediv 0 pool = Ret 0.
Proof.
  intros Hp. unfold int_truediv. destruct (Z.eqb_spec pool 0) as [|_]; [done|].
  assert (R : round (Z.abs 0 * one) (Z.abs pool) = 0).
  { unfold round. change (Z.abs 0 * one) with 0. rewrite Z.div_0_l by lia.
    change (Z.max (Z.log2 0 - 52) 0) with 0. rewrite Z.pow_0_r, !Z.mul_1_r.
    unfold nearest_even. rewrite Z.div_0_l, Z.mod_0_l by lia.
    by destruct (Z.ltb_spec (2 * 0) (Z.abs pool)); [|lia]. }
  rewrite R. by destruct (Z.leb_spec inf 0).
Qed.

(** With a negative divisor the batch size is never positive. *)
Lemma batch_size_not_positive total pool q :
  0 <= total -> pool < 0 -> int_truediv total pool = Ret q ->
  ceil (div_by_ten q) <= 0.
Proof.
  intros Ht Hp H. unfold int_truediv in H.
  destruct (Z.eqb_spec pool 0) as [|_]; [lia|].
  destruct (inf <=? _); [done|]. injection H as <-.
  pose proof one_pos.
  pose proof (round_nonneg (Z.abs total * one) (Z.abs pool) ltac:(nia) ltac:(lia)) as Hr.
  set (m := round _ _) in *.
  apply ceil_nonpos. unfold div_by_ten.
  pose proof (round_nonneg (Z.abs (Z.sgn total * Z.sgn pool * m)) 10
                ltac:(lia) ltac:(lia)).
  assert (Z.sgn (Z.sgn total * Z.sgn pool * m) <= 0); [|nia].
  rewrite (Z.sgn_neg pool) by lia. nia.
Qed.
End Float64Facts.

Lemma iterate_rets {A} (l : list A) : iterate (map Ret l) = Ret l.
Proof. induction l as [|x l IH]; [done|]. simpl. by rewrite IH. Qed.

(** The generator for a batch size that is at least one. *)
Lemma idss_positive (total b : Z) :
  (1 <= b)%Z -> (0 <= total)%Z ->
  (do ks <- mk_range 0 total b;
   Ret (map (fun k => mk_range k (Z.min (k + b) total) 1) (range_elems ks)))
  = Ret (map Ret (batches total b)).
Proof.
  intros Hb Ht.
  unfold mk_range at 1. destruct (Z.eqb_spec b 0) as [E|_]; [lia|]. simpl.
  f_equal. unfold range_elems, range_len, batches. simpl.
  destruct (Z.ltb_spec 0 b); [|lia]. destruct (Z.ltb_spec 0 total).
  - rewrite !map_map. replace (total - 0 - 1)%Z with (total - 1)%Z by lia.
    apply map_ext. intros i. unfold mk_range. simpl. by rewrite Z.add_0_l.
  - replace total with 0%Z by lia.
    replace ((0 - 1) / b)%Z with (-1)%Z; [done|].
    apply (Z.div_unique (0 - 1) b (-1) (b - 1)); lia.
Qed.

(** The generator for a batch size that is not positive. *)
Lemma idss_not_positive (self : PooledCaller.t) (total b : Z) :
  (b <= 0)%Z -> (0 <= total)%Z ->
  (do ks <- mk_range 0 total b;
   Ret (map (fun k => mk_range k (Z.min (k + b) total) 1) (range_elems ks)))
  = if (b =? 0)%Z
    then Raise (Exc ValueError "range() arg 3 must not be zero")
    else Ret [].
Proof.
  intros Hb Ht. unfold mk_range at 1.
  destruct (Z.eqb_spec b 0) as [E|E]; [done|]. simpl.
  unfold range_elems, range_len. simpl.
  destruct (Z.ltb_spec 0 b); [lia|]. by destruct (Z.ltb_spec total 0); [lia|].
Qed.

Lemma idss_default (self : PooledCaller.t) (total : Z) :
  (1 <= PooledCaller.pool_size self < 2 ^ 50)%Z -> (1 <= total < 2 ^ 50)%Z ->
  PooledCaller.idss self total None
  = Ret (map Ret (batches total (ceil_div total (PooledCaller.pool_size self * 10)))).
Proof.
  intros Hp Ht. unfold PooledCaller.idss.
  destruct (Float64Facts.default_batch_size_exact total _ Hp Ht) as (q & -> & Hq).
  cbn [bind]. rewrite Hq.
  apply idss_positive; [|lia]. apply default_batch_size_pos; lia.
Qed.

Lemma batches_lookup total b i r :
  batches total b !! i = Some r ->
  (Z.of_nat i <= (total - 1) / b)%Z
  /\ r = {| r_start := Z.of_nat i * b;
            r_stop := Z.min (Z.of_nat i * b + b) total; r_step := 1 |}.
Proof.
  unfold batches. intros H. apply list_lookup_fmap_Some in H as (k & -> & Hk).
  apply lookup_seq in Hk as [-> Hi]. split; [lia|done].
Qed.

Lemma batches_length total b : (1 <= b)%Z -> (1 <= total)%Z ->
  Z.of_nat (length (batches total b)) = ((total - 1) / b + 1)%Z.
Proof.
  intros Hb Ht. unfold batches. rewrite length_map, length_seq.
  pose proof (Z.div_pos (total - 1) b ltac:(lia) ltac:(lia)). lia.
Qed.

Lemma batches_cover_upto total b (m : nat) : (1 <= b)%Z -> (1 <= total)%Z ->
  (Z.of_nat m <= (total - 1) / b + 1)%Z ->
  concat (map range_elems
            (map (fun i => {| r_start := Z.of_nat i * b;
                              r_stop := Z.min (Z.of_nat i * b + b) total;
                              r_step := 1 |}) (seq 0 m)))
  = interval 0 (Z.min (Z.of_nat m * b) total).
Proof.
  intros Hb Ht. induction m as [|m IH]; intros Hm.
  - simpl. by rewrite interval_nil by lia.
  - rewrite seq_S, !map_app, concat_app, IH by lia. simpl.
    rewrite app_nil_r, range_elems_unit.
    pose proof (Z.mul_div_le (total - 1) b ltac:(lia)).
    assert (Z.of_nat m * b <= total - 1)%Z by nia.
    replace (Z.min (Z.of_nat m * b) total) with (Z.of_nat m * b)%Z by lia.
    replace (Z.of_nat (S m) * b)%Z with (Z.of_nat m * b + b)%Z by lia.
    apply interval_app; lia.
Qed.

Lemma batches_cover total b : (1 <= b)%Z -> (1 <= total)%Z ->
  concat (map range_elems (batches total b)) = interval 0 total.
Proof.
  intros Hb Ht. unfold batches.
  pose proof (Z.div_pos (total - 1) b ltac:(lia) ltac:(lia)).
  rewrite batches_cover_upto by lia. f_equal.
  pose proof (Z.div_mod (total - 1) b ltac:(lia)).
  pose proof (Z.mod_pos_bound (total - 1) b ltac:(lia)). nia.
Qed.

(** C8, as stated, fails in two ways.  In a pool without slots
    ([pool_size = 0]) [idss(1)] raises [ZeroDivisionError] and produces
    nothing.  And the batch size is computed in double precision: on a
    pool of one slot, [idss(10**17 + 1)] yields eleven ranges of 10**16
    indices, not ten of [ceil((10**17 + 1) / 10)] = 10**16 + 1. *)
Lemma idss_default_fails :
  (exists e, PooledCaller.idss (PooledCaller.__init__ Sample.world (Some 0%Z)) 1 None
             = Raise e /\ exn_cls e = ZeroDivisionError)
  /\ exists g rs,
       PooledCaller.idss (PooledCaller.__init__ Sample.world (Some 1%Z))
                         100000000000000001 None = Ret g
       /\ iterate g = Ret rs
       /\ length rs = 11
       /\ rs !! 0 = Some {| r_start := 0; r_stop := 10000000000000000; r_step := 1 |}
       /\ ceil_div 100000000000000001 (1 * 10) = 10000000000000001%Z.
Proof.
  split.
  - eexists. split; reflexivity.
  - eexists _, _. split; [vm_compute; reflexivity|].
    split; [vm_compute; reflexivity|]. repeat split.
Qed.

(** C8, amended: in a pool with at least one slot and fewer than 2^50,
    for every [total] from 1 up to (not including) 2^50 the generator of
    [idss(total)] runs to its end without fault and yields ranges of step
    one which, one after the other, list exactly 0 .. total-1 in
    increasing order; the i-th range starts at [i * b] for
    [b = ceil(total / pool_size / 10)] (in this domain the double precision
    computation gives the exact ceiling), is not empty, has [b] indices
    unless it is the last, and there are at most ten ranges per slot; a
    second call yields the same. *)
Theorem idss_partitions (self : PooledCaller.t) (total : Z)
    (Hpool : (1 <= PooledCaller.pool_size self < 2 ^ 50)%Z)
    (Htotal : (1 <= total < 2 ^ 50)%Z) :
  let b := ceil_div total (PooledCaller.pool_size self * 10) in
  exists g rs,
    PooledCaller.idss self total None = Ret g
    /\ iterate g = Ret rs
    /\ concat (map range_elems rs) = interval 0 total
    /\ (forall i r, rs !! i = Some r ->
          range_elems r = interval (Z.of_nat i * b) (Z.min (Z.of_nat i * b + b) total)
          /\ (1 <= length (range_elems r) <= Z.to_nat b)
          /\ (S i < length rs -> length (range_elems r) = Z.to_nat b))
    /\ (1 <= Z.of_nat (length rs) <= 10 * PooledCaller.pool_size self)%Z
    /\ (forall g', PooledCaller.idss self total None = Ret g' -> g' = g).
Proof.
  intros b.
  assert (Hpool1 : (1 <= PooledCaller.pool_size self)%Z) by lia.
  assert (Htotal1 : (1 <= total)%Z) by lia.
  pose proof (default_batch_size_pos total _ Hpool1 Htotal1) as Hb.
  pose proof (ceil_div_bounds total (PooledCaller.pool_size self * 10) ltac:(lia)) as Hc.
  fold b in Hb, Hc.
  exists (map Ret (batches total b)), (batches total b).
  rewrite idss_default by done. fold b.
  split; [done|]. split; [apply iterate_rets|].
  split; [by apply batches_cover|].
  pose proof (batches_length total b Hb Htotal1) as Hlen.
  pose proof (Z.mul_div_le (total - 1) b ltac:(lia)) as Hq.
  pose proof (Z.div_pos (total - 1) b ltac:(lia) ltac:(lia)) as Hq0.
  split; [|split].
  - intros i r Hr. apply batches_lookup in Hr as [Hi ->].
    rewrite range_elems_unit, interval_length.
    assert (Z.of_nat i * b <= total - 1)%Z by nia.
    split; [done|]. split; [lia|]. intros Hlast.
    assert (Z.of_nat i + 1 <= (total - 1) / b)%Z by lia.
    assert ((Z.of_nat i + 1) * b <= total - 1)%Z by nia. lia.
  - split; [lia|]. rewrite Hlen.
    assert ((total - 1) / b < 10 * PooledCaller.pool_size self)%Z; [|lia].
    apply Z.div_lt_upper_bound; nia.
  - intros g' Hg. by injection Hg as <-.
Qed.

Lemma idss_partitions_witness :
  (1 <= PooledCaller.pool_size (PooledCaller.__init__ Sample.world (Some 2%Z)) < 2 ^ 50)%Z
  /\ (1 <= 45 < 2 ^ 50)%Z
  /\ exists g rs,
       PooledCaller.idss (PooledCaller.__init__ Sample.world (Some 2%Z)) 45 None = Ret g
       /\ iterate g = Ret rs
       /\ concat (map range_elems rs) = interval 0 45.
Proof.
  assert (H1 : (1 <= PooledCaller.pool_size
                  (PooledCaller.__init__ Sample.world (Some 2%Z)) < 2 ^ 50)%Z)
    by (simpl; lia).
  assert (H2 : (1 <= 45 < 2 ^ 50)%Z) by lia.
  split; [exact H1|]. split; [exact H2|].
  destruct (idss_partitions _ 45 H1 H2) as (g & rs & Hg & Hrs & Hcover & _).
  exists g, rs. split; [exact Hg|]. split; [exact Hrs|exact Hcover].
Defined.

(** C10, as stated, fails: with [total = 0] the zero step is met when
    [idss] builds the generator expression, so the call itself raises and
    no generator is returned whose iteration could raise. *)
Lemma idss_zero_total_returns_no_generator :
  PooledCaller.idss (PooledCaller.__init__ Sample.world (Some 4%Z)) 0 None
  = Raise (Exc ValueError "range() arg 3 must not be zero")
  /\ ~ (exists g e,
          PooledCaller.idss (PooledCaller.__init__ Sample.world (Some 4%Z)) 0 None = Ret g
          /\ iterate g = Raise e).
Proof.
  assert (H : PooledCaller.idss (PooledCaller.__init__ Sample.world (Some 4%Z)) 0 None
              = Raise (Exc ValueError "range() arg 3 must not be zero"))
    by (vm_compute; reflexivity).
  split; [exact H|]. intros (g & e & Hg & _). by rewrite H in Hg.
Qed.

(** C10, amended: in a pool with at least one slot and fewer than 2^50,
    and with no batch size given, for [total = 0] the double precision
    computation gives batch size 0 and the call [idss(0)] itself raises
    [ValueError] (a range with zero step); for every [total] from 1 up to
    (not including) 2^50 it gives a batch size of at least 1, the call
    returns a generator and running it to its end never faults. *)
Theorem idss_needs_positive_total (self : PooledCaller.t)
    (Hpool : (1 <= PooledCaller.pool_size self < 2 ^ 50)%Z) :
  (do q <- Float64.int_truediv 0 (PooledCaller.pool_size self);
   Ret (Float64.ceil (Float64.div_by_ten q))) = Ret 0%Z
  /\ PooledCaller.idss self 0 None
     = Raise (Exc ValueError "range() arg 3 must not be zero")
  /\ forall total, (1 <= total < 2 ^ 50)%Z ->
       (exists b,
          (do q <- Float64.int_truediv total (PooledCaller.pool_size self);
           Ret (Float64.ceil (Float64.div_by_ten q))) = Ret b /\ (1 <= b)%Z)
       /\ exists g rs, PooledCaller.idss self total None = Ret g /\ iterate g = Ret rs.
Proof.
  assert (H0 : (do q <- Float64.int_truediv 0 (PooledCaller.pool_size self);
                Ret (Float64.ceil (Float64.div_by_ten q))) = Ret 0%Z).
  { by rewrite Float64Facts.int_truediv_zero by lia. }
  split; [exact H0|]. split.
  - unfold PooledCaller.idss. by rewrite H0.
  - intros total Ht. split.
    + destruct (Float64Facts.default_batch_size_exact total _ Hpool Ht) as (q & -> & Hq).
      eexists. split; [reflexivity|]. rewrite Hq. apply default_batch_size_pos; lia.
    + eexists _, _. split; [by apply idss_default|]. apply iterate_rets.
Qed.

Lemma idss_needs_positive_total_witness :
  (1 <= PooledCaller.pool_size (PooledCaller.__init__ Sample.world (Some 4%Z)) < 2 ^ 50)%Z
  /\ PooledCaller.idss (PooledCaller.__init__ Sample.world (Some 4%Z)) 0 None
     = Raise (Exc ValueError "range() arg 3 must not be zero").
Proof.
  assert (H1 : (1 <= PooledCaller.pool_size
                  (PooledCaller.__init__ Sample.world (Some 4%Z)) < 2 ^ 50)%Z)
    by (simpl; lia).
  split; [exact H1|].
  exact (proj1 (proj2 (idss_needs_positive_total _ H1))).
Defined.

(** ** The scheduler: what each operation leaves alone *)

Module Frame.
Import PooledCaller.

Lemma quiet_refl s : quiet s s.
Proof. by split. Qed.

Lemma quiet_trans s1 s2 s3 : quiet s1 s2 -> quiet s2 s3 -> quiet s1 s3.
Proof. intros [] []. split; try congruence. lia. Qed.

Lemma quiet_moved s s' : quiet s s' -> moved s s'.
Proof. intros []. split; congruence. Qed.

Lemma moved_refl s : moved s s.
Proof. by split. Qed.

Lemma moved_trans s1 s2 s3 : moved s1 s2 -> moved s2 s3 -> moved s1 s3.
Proof. intros [] []. split; congruence. Qed.

Lemma quiet_within s s' : quiet s s' -> within_pool s -> within_pool s'.
Proof. unfold within_pool. intros [] H. lia. Qed.

Lemma alter_keeps_idx (f : Job -> Job) r (log : list Job) :
  (forall j, j_idx (f j) = j_idx j) ->
  map j_idx (alter f r log) = map j_idx log.
Proof.
  intros Hf. revert r. induction log as [|j log IH]; intros [|r]; simpl; try done.
  - by rewrite Hf.
  - f_equal. apply IH.
Qed.

Lemma quiet_update_job r f s :
  (forall j, j_idx (f j) = j_idx j) -> quiet s (update_job r f s).
Proof. intros Hf. split; simpl; try done. by apply alter_keeps_idx. Qed.

Lemma remove_proc_length p l : length (remove_proc p l) <= length l.
Proof.
  induction l as [|q l IH]; simpl; [done|].
  destruct (p_ref p =? p_ref q)%nat; simpl; lia.
Qed.

Lemma quiet_deliver w s : quiet s (deliver w s).
Proof. by split. Qed.

Lemma quiet_sleep w s : quiet s (sleep w s).
Proof. by split. Qed.

Lemma quiet_async_get_res s ress s' ress' :
  _async_get_res s ress = Ret (s', ress') -> quiet s s'.
Proof.
  unfold _async_get_res. intros H.
  destruct (res_queue s) as [|res rest]; [by injection H as <- _|].
  destruct (e_output res) as [output|]; [|by injection H as <- _].
  destruct (_ !! _) as [pid|]; [|done]. simpl in H.
  destruct (dict_get pid _) as [r|]; [|done]. injection H as <- _.
  split; simpl; try done. by apply alter_keeps_idx.
Qed.

Lemma quiet_poll_one w p s s' : poll_one w p s = Ret s' -> quiet s s'.
Proof.
  unfold poll_one. intros H.
  destruct (dict_get (p_pid p) (_pid2job s)) as [r|]; [|done].
  destruct (_log s !! r) as [job|]; [|done].
  destruct (os_exited w (clock s) (p_ref p)); [|by injection H as <-].
  destruct (p_kind p).
  - destruct (j_watcher job); [|done]. injection H as <-.
    split; simpl; try done; [apply remove_proc_length|].
    by rewrite !alter_keeps_idx.
  - injection H as <-.
    split; simpl; try done; [apply remove_proc_length|].
    by rewrite alter_keeps_idx.
Qed.

Lemma quiet_poll_from fuel w : forall i s s',
  poll_from fuel w i s = Ret s' -> quiet s s'.
Proof.
  induction fuel as [|fuel IH]; intros i s s' H; simpl in H.
  - injection H as <-. apply quiet_refl.
  - destruct (ps s !! i) as [p|]; [|injection H as <-; apply quiet_refl].
    destruct (poll_one w p s) as [s1|] eqn:E; simpl in H; [|done].
    eapply quiet_trans; [by eapply quiet_poll_one | by eapply IH].
Qed.

(** What one round of [dispatch] does. *)
Lemma dispatch_body_starts_one w s s' :
  dispatch_body w s = Ret s' ->
  pool_size s' = pool_size s
  /\ length (ps s') = S (length (ps s))
  /\ exists q, cmd_queue s = q :: cmd_queue s'
               /\ map j_idx (_log s') = map j_idx (_log s) ++ [queued_idx q].
Proof.
  unfold dispatch_body. intros H.
  destruct (cmd_queue s) as [|[[[idx cmd] args] kw] rest] eqn:Eq; [done|].
  destruct (cmd_for_disp cmd) as [disp|]; simpl in H; [|done].
  destruct cmd as [c|l|f]; simpl in H.
  1,2: destruct (os_popen w _ _ kw) as [pid|]; simpl in H; [|done].
  all: injection H as <-; simpl; rewrite ?length_app, ?map_app; simpl.
  all: split; [done|]; split; [lia|]; by eexists.
Qed.

Lemma moved_dispatch_body w s s' : dispatch_body w s = Ret s' -> moved s s'.
Proof.
  intros H. apply dispatch_body_starts_one in H as (Hp & _ & q & Hq & Hl).
  split; [done|]. rewrite Hq, Hl. simpl. by rewrite <- app_assoc.
Qed.

Lemma moved_dispatch_loop fuel w : forall s s',
  dispatch_loop fuel w s = Ret s' -> moved s s'.
Proof.
  induction fuel as [|fuel IH]; intros s s' H; simpl in H.
  - injection H as <-. apply moved_refl.
  - destruct (dispatch_guard s); [|injection H as <-; apply moved_refl].
    destruct (dispatch_body w s) as [s1|] eqn:E; simpl in H; [|done].
    eapply moved_trans; [by eapply moved_dispatch_body | by eapply IH].
Qed.

Lemma moved_wait_body w s ress s' ress' :
  wait_body w s ress = Ret (s', ress') -> moved s s'.
Proof.
  unfold wait_body, dispatch, poll. intros H.
  destruct (dispatch_loop _ w s) as [s1|] eqn:E1; simpl in H; [|done].
  destruct (poll_from _ w 0 (deliver w s1)) as [s2|] eqn:E2; simpl in H; [|done].
  eapply moved_trans; [by eapply moved_dispatch_loop|].
  apply quiet_moved.
  eapply quiet_trans; [apply quiet_deliver|].
  eapply quiet_trans; [by eapply quiet_poll_from|].
  eapply quiet_trans; [apply quiet_sleep|].
  by eapply quiet_async_get_res.
Qed.

(** When the loop of [wait] ends, nothing runs and nothing is queued. *)
Lemma wait_loop_ends fuel w : forall s ress s' ress',
  wait_loop fuel w s ress = Some (Ret (s', ress')) ->
  moved s s' /\ ps s' = [] /\ cmd_queue s' = [].
Proof.
  induction fuel as [|fuel IH]; intros s ress s' ress' H; simpl in H.
  all: destruct (wait_guard s) eqn:G.
  all: try done.
  2: { destruct (wait_body w s ress) as [[s1 ress1]|] eqn:E; [|done].
       destruct (IH _ _ _ _ H) as (Hm & Hps & Hq).
       split; [|done]. eapply moved_trans; [by eapply moved_wait_body | done]. }
  all: injection H as <- <-; split; [apply moved_refl|].
  all: unfold wait_guard in G; apply orb_false_iff in G as [G1 G2].
  all: apply Nat.ltb_ge in G1, G2.
  all: split; apply length_zero_iff_nil; lia.
Qed.

(** The fuel [dispatch] gives its loop is enough: it stops on its guard. *)
Lemma dispatch_loop_exhausts fuel w : forall s s',
  length (cmd_queue s) <= fuel ->
  dispatch_loop fuel w s = Ret s' -> dispatch_guard s' = false.
Proof.
  induction fuel as [|fuel IH]; intros s s' Hf H; simpl in H.
  - injection H as <-. unfold dispatch_guard.
    replace (length (cmd_queue s)) with 0 by lia. apply andb_false_r.
  - destruct (dispatch_guard s) eqn:G; [|by injection H as <-].
    destruct (dispatch_body w s) as [s1|] eqn:E; simpl in H; [|done].
    apply dispatch_body_starts_one in E as (_ & _ & q & Hq & _).
    rewrite Hq in Hf. simpl in Hf. apply (IH s1); [lia | done].
Qed.

Lemma dispatch_fills w s s' : dispatch w s = Ret s' -> dispatch_guard s' = false.
Proof. by apply dispatch_loop_exhausts. Qed.

(** The fuel [poll] gives its loop is enough: more changes nothing. *)
Lemma poll_from_enough fuel w : forall i s k,
  length (ps s) <= i + fuel ->
  poll_from (fuel + k) w i s = poll_from fuel w i s.
Proof.
  induction fuel as [|fuel IH]; intros i s k Hf.
  - simpl. destruct k as [|k]; [done|]. simpl.
    by rewrite lookup_ge_None_2 by lia.
  - simpl. destruct (ps s !! i) as [p|]; [|done].
    destruct (poll_one w p s) as [s1|] eqn:E; simpl; [|done].
    apply quiet_poll_one in E as [_ Hl _ _]. apply IH. lia.
Qed.

End Frame.

(** ** C5 and C9: what [wait] resets and what it keeps *)

Section WaitReturns.
Import PooledCaller Frame.

(** The shape of the pool a completed [wait] leaves. *)
Lemma wait_returns fuel w self k rc rj r self' :
  wait fuel w self k rc rj = Some (Ret (r, self')) ->
  exists s,
    moved (match k with Some k' => set_pool_size k' self | None => self end) s
    /\ ps s = [] /\ cmd_queue s = []
    /\ self' = (match k with
                | Some _ => set_pool_size (pool_size self)
                | None => fun x => x
                end) (set_pid2job [] (set_idx2pid ∅ (set_n_cmds 0 s))).
Proof.
  unfold wait. intros H.
  destruct (wait_loop fuel w _ []) as [[[s1 ress]|]|] eqn:E;
    [|done|done].
  apply wait_loop_ends in E as (Hm & Hps & Hq).
  injection H as H. unfold wait_finish in H.
  destruct (_async_get_res s1 ress) as [[s2 ress2]|] eqn:Eg; simpl in H; [|done].
  apply quiet_async_get_res in Eg as Hquiet.
  destruct (deref _ _) as [jobs|]; simpl in H; [|done].
  destruct (returncodes _) as [codes|]; simpl in H; [|done].
  exists s2. split; [|split; [|split]].
  - eapply moved_trans; [done | by apply quiet_moved].
  - destruct Hquiet as [_ Hl _ _]. rewrite Hps in Hl.
    apply length_zero_iff_nil. simpl in Hl. lia.
  - destruct Hquiet as [_ _ Hqq _]. congruence.
  - destruct k; by injection H as _ <-.
Qed.

Lemma run_queues self cmd args kw self' :
  run self cmd args kw = Ret self' ->
  pool_size self' = pool_size self /\ _log self' = _log self
  /\ ps self' = ps self
  /\ _n_cmds self' = S (_n_cmds self)
  /\ map queued_idx (cmd_queue self')
     = map queued_idx (cmd_queue self) ++ [_n_cmds self].
Proof.
  unfold run. intros H.
  destruct (cmd_for_exec cmd (ShellKwargs kw)) as [c|]; simpl in H; [|done].
  injection H as <-. simpl. by rewrite map_app.
Qed.

Lemma run_all_queues batch : forall self self',
  run_all self batch = Ret self' ->
  pool_size self' = pool_size self /\ _log self' = _log self
  /\ ps self' = ps self
  /\ map queued_idx (cmd_queue self')
     = map queued_idx (cmd_queue self) ++ seq (_n_cmds self) (length batch).
Proof.
  induction batch as [|[[cmd args] kw] batch IH]; intros self self' H; simpl in H.
  - injection H as <-. by rewrite app_nil_r.
  - destruct (run self cmd args kw) as [s1|] eqn:E; simpl in H; [|done].
    apply run_queues in E as (Hp & Hl & Hps & Hn & Hq).
    apply IH in H as (Hp' & Hl' & Hps' & Hq').
    rewrite Hq', Hq, Hn, <- app_assoc. simpl. repeat split; congruence.
Qed.

(** The history after a completed [wait]: the jobs it had, then the
    queued ones in submission order. *)
Lemma wait_history fuel w self k rc rj r self' :
  wait fuel w self k rc rj = Some (Ret (r, self')) ->
  map j_idx (_log self') = map j_idx (_log self) ++ map queued_idx (cmd_queue self).
Proof.
  intros H. apply wait_returns in H as (s & [_ Hm] & _ & Hq & ->).
  rewrite Hq, app_nil_r in Hm. by destruct k.
Qed.

(** C5: after every completed [wait] the submission counter is 0 and
    both maps are empty, while the history has the jobs it had before
    followed by the jobs of the batch; so the jobs of a second batch are
    numbered from 0 again, the history after its [wait] has the jobs of
    both batches, and [all_successful] without a job set examines that
    whole history. *)
Theorem wait_resets_batch_state fuel w self k rc rj r self'
    (Hwait : wait fuel w self k rc rj = Some (Ret (r, self'))) :
  _n_cmds self' = 0 /\ _idx2pid self' = ∅ /\ _pid2job self' = []
  /\ cmd_queue self' = []
  /\ map j_idx (_log self')
     = map j_idx (_log self) ++ map queued_idx (cmd_queue self)
  /\ (forall batch self2, run_all self' batch = Ret self2 ->
        map queued_idx (cmd_queue self2) = seq 0 (length batch)
        /\ forall fuel2 w2 k2 rc2 rj2 r2 self3,
             wait fuel2 w2 self2 k2 rc2 rj2 = Some (Ret (r2, self3)) ->
             map j_idx (_log self3)
             = map j_idx (_log self) ++ map queued_idx (cmd_queue self)
                 ++ seq 0 (length batch)
             /\ forall pat, all_successful self3 pat None
                            = all_successful_of pat (_log self3)).
Proof.
  pose proof (wait_history _ _ _ _ _ _ _ _ Hwait) as Hlog.
  apply wait_returns in Hwait as (s & _ & _ & Hq & Hself).
  assert (H : _n_cmds self' = 0 /\ _idx2pid self' = ∅ /\ _pid2job self' = []
              /\ cmd_queue self' = []).
  { rewrite Hself. destruct k; simpl; by rewrite Hq. }
  destruct H as (Hn & Hi & Hp & Hq').
  repeat (split; [done|]).
  intros batch self2 Hrun.
  apply run_all_queues in Hrun as (_ & Hl2 & _ & Hq2).
  rewrite Hq', Hn in Hq2. simpl in Hq2. split; [done|].
  intros fuel2 w2 k2 rc2 rj2 r2 self3 Hwait2. split; [|done].
  rewrite (wait_history _ _ _ _ _ _ _ _ Hwait2), Hl2, Hlog, Hq2.
  by rewrite <- app_assoc.
Qed.

(** A completed [wait] hands the pool back with the size it had. *)
Lemma wait_pool_size fuel w self k rc rj r self' :
  wait fuel w self k rc rj = Some (Ret (r, self')) ->
  pool_size self' = pool_size self.
Proof.
  intros H. apply wait_returns in H as (s & [Hp _] & _ & _ & ->).
  by destruct k.
Qed.

End WaitReturns.

(** ** C2 and C9: what holds at every point of [dispatch] and [wait] *)

Section EveryPoint.
Import PooledCaller Frame.

Lemma steady_refl s : steady s s.
Proof. split; [apply moved_refl | done]. Qed.

Lemma steady_trans s1 s2 s3 : steady s1 s2 -> steady s2 s3 -> steady s1 s3.
Proof. intros [] []. split; [by eapply moved_trans | auto]. Qed.

Lemma quiet_steady s s' : quiet s s' -> steady s s'.
Proof. intros H. split; [by apply quiet_moved | by apply quiet_within]. Qed.

Lemma steady_after s s1 l : steady s s1 -> Forall (steady s1) l -> Forall (steady s) l.
Proof.
  intros H Hl. eapply Forall_impl; [exact Hl|]. intros s2. by apply steady_trans.
Qed.

(** A job is started only into a free slot. *)
Lemma dispatch_body_guarded w s s' :
  dispatch_guard s = true -> dispatch_body w s = Ret s' ->
  (Z.of_nat (length (ps s)) < pool_size s)%Z /\ cmd_queue s <> []
  /\ length (ps s') = S (length (ps s)) /\ steady s s'.
Proof.
  intros G H. apply andb_true_iff in G as [G _]. apply Z.ltb_lt in G.
  pose proof (moved_dispatch_body _ _ _ H) as Hm.
  apply dispatch_body_starts_one in H as (Hp & Hl & q & Hq & _).
  split; [done|]. split; [by rewrite Hq|]. split; [done|]. split; [done|].
  unfold within_pool. lia.
Qed.

Lemma dispatch_states_steady fuel w : forall s,
  Forall (steady s) (dispatch_states fuel w s)
  /\ forall s', dispatch_loop fuel w s = Ret s' ->
       steady s s' /\ last (s :: dispatch_states fuel w s) = Some s'.
Proof.
  induction fuel as [|fuel IH]; intros s; simpl.
  - split; [constructor|]. intros s' H. injection H as <-.
    split; [apply steady_refl | done].
  - destruct (dispatch_guard s) eqn:G.
    2: { split; [constructor|]. intros s' H. injection H as <-.
         split; [apply steady_refl | done]. }
    destruct (dispatch_body w s) as [s1|] eqn:E; simpl; [|by split].
    destruct (dispatch_body_guarded _ _ _ G E) as (_ & _ & _ & Hs).
    destruct (IH s1) as [Hall Hret]. split.
    + constructor; [done|]. by eapply steady_after.
    + intros s' H. destruct (Hret _ H) as [Hs' Hlast].
      split; [by eapply steady_trans|]. exact Hlast.
Qed.

Lemma poll_states_quiet fuel w : forall i s,
  Forall (quiet s) (poll_states fuel w i s)
  /\ forall s', poll_from fuel w i s = Ret s' ->
       last (s :: poll_states fuel w i s) = Some s'.
Proof.
  induction fuel as [|fuel IH]; intros i s; simpl.
  - split; [constructor|]. by intros s' [= <-].
  - destruct (ps s !! i) as [p|]; [|split; [constructor | by intros s' [= <-]]].
    destruct (poll_one w p s) as [s1|] eqn:E; simpl; [|by split].
    apply quiet_poll_one in E. destruct (IH (S i) s1) as [Hall Hret]. split.
    + constructor; [done|]. eapply Forall_impl; [exact Hall|].
      intros s2. by apply quiet_trans.
    + intros s' H. by apply Hret.
Qed.

Lemma wait_body_states_steady w s ress :
  Forall (steady s) (wait_body_states w s ress)
  /\ forall s' ress', wait_body w s ress = Ret (s', ress') ->
       exists l, wait_body_states w s ress = l ++ [s'].
Proof.
  unfold wait_body_states, wait_body, dispatch, poll.
  destruct (dispatch_states_steady (length (cmd_queue s)) w s) as [Hd Hdl].
  destruct (dispatch_loop _ w s) as [s1|]; simpl.
  2: { rewrite app_nil_r. by split. }
  destruct (Hdl _ eq_refl) as [Hs1 _].
  assert (Hs1' : steady s (deliver w s1)).
  { eapply steady_trans; [done|]. apply quiet_steady, quiet_deliver. }
  destruct (poll_states_quiet (length (ps (deliver w s1))) w 0 (deliver w s1))
    as [Hp Hpl].
  assert (Hp' : Forall (steady s)
                  (poll_states (length (ps (deliver w s1))) w 0 (deliver w s1))).
  { eapply steady_after; [exact Hs1'|].
    eapply Forall_impl; [exact Hp|]. intros ?. apply quiet_steady. }
  destruct (poll_from _ w 0 (deliver w s1)) as [s2|] eqn:E2; simpl.
  2: { rewrite app_nil_r. split; [|done]. apply Forall_app. split; [done|].
       by constructor. }
  assert (Hs2 : steady s (sleep w s2)).
  { eapply steady_trans; [exact Hs1'|]. apply quiet_steady.
    eapply quiet_trans; [by eapply quiet_poll_from | apply quiet_sleep]. }
  destruct (_async_get_res (sleep w s2) ress) as [[s3 ress3]|] eqn:E3; simpl.
  - assert (Hs3 : steady s s3).
    { eapply steady_trans; [exact Hs2|].
      apply quiet_steady. by eapply quiet_async_get_res. }
    split.
    + apply Forall_app. split; [done|]. constructor; [done|].
      apply Forall_app. split; [done|]. by repeat (constructor; [done|]).
    + intros s' ress' [= <- <-].
      exists (dispatch_states (length (cmd_queue s)) w s
                ++ deliver w s1
                :: poll_states (length (ps (deliver w s1))) w 0 (deliver w s1)
                ++ [sleep w s2]).
      rewrite <- app_assoc. simpl. by rewrite <- app_assoc.
  - split; [|done]. apply Forall_app. split; [done|]. constructor; [done|].
    apply Forall_app. split; [done|]. by repeat (constructor; [done|]).
Qed.

Lemma wait_loop_states_steady fuel w : forall s ress,
  Forall (steady s) (wait_loop_states fuel w s ress)
  /\ forall s' ress', wait_loop fuel w s ress = Some (Ret (s', ress')) ->
       last (s :: wait_loop_states fuel w s ress) = Some s'.
Proof.
  induction fuel as [|fuel IH]; intros s ress; simpl.
  - destruct (wait_guard s); [by split|].
    split; [constructor | by intros s' ress' [= <- <-]].
  - destruct (wait_guard s); [|split; [constructor | by intros s' ress' [= <- <-]]].
    destruct (wait_body_states_steady w s ress) as [Hb Hbl].
    destruct (wait_body w s ress) as [[s1 ress1]|] eqn:E.
    2: { rewrite app_nil_r. by split. }
    destruct (Hbl _ _ eq_refl) as [l Hl].
    destruct (IH s1 ress1) as [Hall Hret].
    assert (Hs1 : steady s s1).
    { rewrite Hl in Hb. apply Forall_app in Hb as [_ Hb]. by inversion Hb. }
    split.
    + apply Forall_app. split; [done|]. by eapply steady_after.
    + intros s' ress' H. specialize (Hret _ _ H).
      rewrite Hl, <- app_assoc, app_comm_cons, last_app. simpl app.
      by rewrite Hret.
Qed.

(** Pools built through [__init__], [run] and [wait] fit their size. *)
Lemma new_pool_within w k : (0 <= k)%Z -> within_pool (__init__ w (Some k)).
Proof. intros H. unfold within_pool. simpl. lia. Qed.

Lemma run_all_within batch self self' :
  run_all self batch = Ret self' -> within_pool self -> within_pool self'.
Proof.
  intros H. apply run_all_queues in H as (Hp & _ & Hps & _).
  unfold within_pool. by rewrite Hp, Hps.
Qed.

Lemma wait_within fuel w self k rc rj r self' :
  wait fuel w self k rc rj = Some (Ret (r, self')) ->
  (0 <= pool_size self)%Z -> within_pool self'.
Proof.
  intros H Hk. pose proof (wait_pool_size _ _ _ _ _ _ _ _ H) as Hp.
  apply wait_returns in H as (s & _ & Hps & _ & ->).
  unfold within_pool. rewrite Hp. destruct k; simpl; rewrite Hps; simpl; lia.
Qed.

Lemma override_within self k :
  ps self = [] -> (0 <= k)%Z -> within_pool (set_pool_size k self).
Proof. intros Hps Hk. unfold within_pool. simpl. rewrite Hps. simpl. lia. Qed.

(** C2, as stated, fails on pools that the public interface reaches.
    After [dispatch()] has started three commands on a pool of three
    slots, [wait(pool_size=1)] goes through its loop with three processes
    running and a pool size of 1: the override is not checked against what
    is already running.  And a pool created with [pool_size=-1] has more
    running processes (none) than its size from the start. *)
Lemma running_can_exceed_pool_size :
  dispatch Sample.world (Sample.pool_of 3 (repeat Sample.echo 3))
  = Ret Sample2.three_running
  /\ (exists s, s ∈ wait_loop_states 1 Sample.world
                     (set_pool_size 1 Sample2.three_running) []
               /\ length (ps s) = 3 /\ pool_size s = 1%Z)
  /\ ~ Forall within_pool
         (wait_loop_states 1 Sample.world (set_pool_size 1 Sample2.three_running) [])
  /\ ~ within_pool (__init__ Sample.world (Some (-1)%Z)).
Proof.
  assert (Hin : exists s, s ∈ wait_loop_states 1 Sample.world
                              (set_pool_size 1 Sample2.three_running) []
                        /\ length (ps s) = 3 /\ pool_size s = 1%Z).
  { eexists. split; [vm_compute; apply list_elem_of_here|]. split; reflexivity. }
  split; [vm_compute; reflexivity|]. split; [exact Hin|]. split.
  - intros Hall. destruct Hin as (s & Hs & Hlen & Hsize).
    rewrite Forall_forall in Hall. specialize (Hall s Hs).
    unfold within_pool in Hall. rewrite Hlen, Hsize in Hall. simpl in Hall. lia.
  - unfold within_pool. simpl. lia.
Qed.

(** C2, amended: from a pool whose running set fits its size when
    [dispatch] or the [wait] loop begins, the running set fits the pool
    size after every iteration of [dispatch] and at every point of the
    [wait] loop; [dispatch] starts a job only when fewer than [pool_size]
    are running and the queue is not empty, and then adds exactly one;
    polling, draining the channel, sleeping and [run] add nothing to the
    running set. *)
Theorem running_never_exceeds_pool_size w self (Hfits : within_pool self) :
  Forall within_pool (dispatch_states (length (cmd_queue self)) w self)
  /\ (forall fuel ress, Forall within_pool (wait_loop_states fuel w self ress))
  /\ (forall s', dispatch_guard self = true -> dispatch_body w self = Ret s' ->
        (Z.of_nat (length (ps self)) < pool_size self)%Z
        /\ cmd_queue self <> []
        /\ length (ps s') = S (length (ps self)))
  /\ (forall p s', poll_one w p self = Ret s' -> length (ps s') <= length (ps self))
  /\ (forall ress s' ress', _async_get_res self ress = Ret (s', ress') ->
        ps s' = ps self)
  /\ ps (sleep w self) = ps self
  /\ ps (deliver w self) = ps self
  /\ (forall cmd args kw s', run self cmd args kw = Ret s' -> ps s' = ps self).
Proof.
  split; [|split; [|split; [|split; [|split; [|split; [|split]]]]]].
  - eapply Forall_impl; [apply dispatch_states_steady|]. intros s [_ H]. auto.
  - intros fuel ress.
    eapply Forall_impl; [apply wait_loop_states_steady|]. intros s [_ H]. auto.
  - intros s' G H. destruct (dispatch_body_guarded _ _ _ G H) as (? & ? & ? & _).
    done.
  - intros p s' H. by apply quiet_poll_one in H as [].
  - unfold _async_get_res. intros ress s' ress' H.
    destruct (res_queue self) as [|res rest]; [by injection H as <- _|].
    destruct (e_output res) as [output|]; [|by injection H as <- _].
    destruct (_ !! _) as [pid|]; [|done]. simpl in H.
    destruct (dict_get pid _) as [r|]; [|done]. by injection H as <- _.
  - done.
  - done.
  - intros cmd args kw s' H. by apply run_queues in H as (_ & _ & ? & _).
Qed.

Lemma running_never_exceeds_pool_size_witness :
  within_pool Sample.three_commands
  /\ Forall within_pool
       (wait_loop_states 10 Sample.world Sample.three_commands []).
Proof.
  assert (H : within_pool Sample.three_commands).
  { unfold within_pool. vm_compute. discriminate. }
  split; [exact H|].
  exact (proj1 (proj2 (running_never_exceeds_pool_size Sample.world _ H)) 10 []).
Defined.

(** C9: when [wait] returns, [pool_size] has the value it had before the
    call, with or without an override; at every point of the loop it is
    the override if one was given and the configured value otherwise. *)
Theorem wait_restores_pool_size fuel w self k rc rj r self'
    (Hwait : wait fuel w self k rc rj = Some (Ret (r, self'))) :
  pool_size self' = pool_size self
  /\ Forall (fun s => pool_size s = default (pool_size self) k)
       (wait_loop_states fuel w
          (match k with Some k' => set_pool_size k' self | None => self end) []).
Proof.
  split; [by eapply wait_pool_size|].
  eapply Forall_impl; [apply wait_loop_states_steady|].
  intros s [[Hp _] _]. rewrite Hp. by destruct k.
Qed.

End EveryPoint.

(** ** Runs of [wait] on the samples *)

Section Runs.
Import PooledCaller.

Lemma wait_restores_pool_size_witness :
  exists r self',
    wait 10 Sample.world Sample.three_commands (Some 3%Z) false false
    = Some (Ret (r, self'))
    /\ pool_size Sample.three_commands = 2%Z
    /\ pool_size self' = 2%Z.
Proof.
  destruct (wait 10 Sample.world Sample.three_commands (Some 3%Z) false false)
    as [[[r self']|e]|] eqn:E.
  - exists r, self'. split; [reflexivity|]. split; [reflexivity|].
    exact (proj1 (wait_restores_pool_size _ _ _ _ _ _ _ _ E)).
  - vm_compute in E. discriminate E.
  - vm_compute in E. discriminate E.
Defined.

Lemma wait_resets_batch_state_witness :
  exists r self',
    wait 10 Sample.world Sample.three_commands None false false
    = Some (Ret (r, self'))
    /\ _n_cmds Sample.three_commands = 3
    /\ _n_cmds self' = 0
    /\ map j_idx (_log self') = [0; 1; 2].
Proof.
  destruct (wait 10 Sample.world Sample.three_commands None false false)
    as [[[r self']|e]|] eqn:E.
  - exists r, self'. split; [reflexivity|]. split; [reflexivity|].
    pose proof (wait_resets_batch_state _ _ _ _ _ _ _ _ E) as H.
    split; [exact (proj1 H)|]. exact (proj1 (proj2 (proj2 (proj2 (proj2 H))))).
  - vm_compute in E. discriminate E.
  - vm_compute in E. discriminate E.
Defined.

(** A batch that comes back whole: three commands on two slots. *)
Example wait_three_commands :
  exists self',
    wait 10 Sample.world Sample.three_commands None false false
    = Some (Ret (Values [PyNone; PyNone; PyNone], self'))
    /\ res_queue self' = [].
Proof. eexists. split; [vm_compute; reflexivity | reflexivity]. Qed.

(** C1 fails on the code.  Five external commands are queued on a pool of
    five slots; all of them are running at the first poll and are found
    terminated at the second.  The [for] loop over [self.ps] removes from
    the list it walks, so it sees the processes 0, 2 and 4 in that round,
    1 in the next and 3 in the last: five items are put on the results
    channel in three rounds.  [_async_get_res] takes one item per call,
    once per round and once after the loop, so [wait] returns four results
    for five jobs and the item of job 3 stays on the channel. *)
Theorem wait_loses_a_result :
  length (cmd_queue Sample.five_commands) = 5
  /\ exists self',
       wait 10 Sample.world Sample.five_commands None false false
       = Some (Ret (Values [PyNone; PyNone; PyNone; PyNone], self'))
       /\ res_queue self' = [ {| e_idx := 3; e_value := PyNone; e_output := None |} ].
Proof.
  split; [reflexivity|].
  eexists. split; [vm_compute; reflexivity | reflexivity].
Qed.

(** The same with five callables that return 0 .. 4 and have ended by the
    first poll: the value 4 is not among the results. *)
Example wait_loses_a_return_value :
  exists self',
    wait 10 Sample.instant_world Sample.five_callables None false false
    = Some (Ret (Values [PyInt 0; PyInt 1; PyInt 2; PyInt 3], self'))
    /\ map e_idx (res_queue self') = [4].
Proof. eexists. split; [vm_compute; reflexivity | reflexivity]. Qed.

End Runs.

(** * Further properties of the module *)

(** ** Normalisation and display *)

(** X1: displaying a command after normalising it for direct execution
    gives what displaying the command itself gives, faults included; with
    [shell=True] the same holds for free text and callables. *)
Theorem display_after_exec (cmd : command) :
  (do c <- cmd_for_exec cmd (ShellFlag false); cmd_for_disp c) = cmd_for_disp cmd
  /\ match cmd with
     | CmdList _ => True
     | _ => (do c <- cmd_for_exec cmd (ShellFlag true); cmd_for_disp c)
            = cmd_for_disp cmd
     end.
Proof.
  destruct cmd as [s|l|f]; simpl; split; try done.
  by destruct (Shlex.split s).
Qed.




Lemma plain_chars_snoc tok c :
  plain_chars tok = true -> Shlex.whitespace c = false ->
  Shlex.quotes c = false -> Shlex.escape c = false ->
  plain_chars (snoc tok c) = true.
Proof.
  intros Ht Hw Hq He. induction tok as [|a tok IH]; simpl in *.
  - by rewrite Hw, Hq, He.
  - apply andb_true_iff in Ht as [Ha Ht]. rewrite Ha. simpl. by apply IH.
Qed.

Lemma snoc_not_empty tok c : snoc tok c <> EmptyString.
Proof. by destruct tok. Qed.

Lemma lex_quote_free s : quote_free s = true ->
  (exists l, Shlex.lex s Shlex.Blank EmptyString false = Ret l /\ Forall plain_token l)
  /\ (forall tok, plain_token tok ->
        exists l, Shlex.lex s Shlex.Word tok false = Ret l /\ Forall plain_token l).
Proof.
  induction s as [|c s IH]; intros Hs.
  - split; [by exists []|]. intros tok Ht. exists [tok]. simpl.
    rewrite emit_token by apply Ht. split; [done|]. by constructor.
  - simpl in Hs. rewrite !andb_true_iff, !negb_true_iff in Hs.
    destruct Hs as [[Hq He] Hs]. destruct (IH Hs) as [(lb & Hb & Hlb) Hword].
    simpl. rewrite Hq, He. destruct (Shlex.whitespace c) eqn:Hw.
    + split; [by exists lb|]. intros tok Ht.
      destruct (String.eqb_spec tok EmptyString) as [E|_]; [by destruct Ht|].
      simpl. rewrite Hb. simpl. rewrite emit_token by apply Ht.
      exists (tok :: lb). split; [done|]. by constructor.
    + split.
      * apply Hword. split; [done|]. simpl. by rewrite Hw, Hq, He.
      * intros tok [Hne Ht]. apply Hword. split; [apply snoc_not_empty|].
        by apply plain_chars_snoc.
Qed.

(** X3: free text without quotes and backslashes always normalises: its
    tokens are plain, and its display form (the tokens joined by single
    blanks) is a fixed point of [cmd_for_disp]. *)
Theorem display_normal_form (s : string) (Hs : quote_free s = true) :
  exists l,
    Forall plain_token l
    /\ cmd_for_exec (CmdStr s) (ShellFlag false) = Ret (CmdList l)
    /\ cmd_for_disp (CmdStr s) = Ret (CmdStr (String.concat " " l))
    /\ cmd_for_disp (CmdStr (String.concat " " l)) = Ret (CmdStr (String.concat " " l)).
Proof.
  destruct (lex_quote_free s Hs) as [(l & Hl & Hplain) _].
  exists l. unfold cmd_for_exec, cmd_for_disp, Shlex.split.
  rewrite Hl. simpl. repeat split; try done.
  fold (Shlex.split (String.concat " " l)). by rewrite split_join_plain.
Qed.

Lemma display_normal_form_witness :
  quote_free "  ls   -l  /tmp " = true
  /\ exists l, Forall plain_token l
       /\ cmd_for_exec (CmdStr "  ls   -l  /tmp ") (ShellFlag false) = Ret (CmdList l).
Proof.
  split; [reflexivity|].
  destruct (display_normal_form "  ls   -l  /tmp " eq_refl) as (l & Hp & He & _).
  by exists l.
Defined.

(** ** The single-command wrapper *)

Lemma read_output_spec (lines : list rawline) (output : list string) :
  match read_output lines output with
  | Ret out => exists texts, lines = map Encoded texts /\ out = output ++ texts
  | Raise e => exists texts reason rest,
      lines = map Encoded texts ++ Undecodable reason :: rest
      /\ e = Exc UnicodeDecodeError reason
  end.
Proof.
  revert output. induction lines as [|line lines IH]; intros output; simpl.
  - exists []. by rewrite app_nil_r.
  - destruct line as [text|reason]; simpl.
    + specialize (IH (output ++ [text])).
      destruct (read_output lines (output ++ [text])) as [out|e].
      * destruct IH as (texts & -> & ->). exists (text :: texts).
        by rewrite <- app_assoc.
      * destruct IH as (texts & reason & rest & -> & ->).
        by exists (text :: texts), reason, rest.
    + by exists [], reason, lines.
Qed.

(** X4: [run] raises for four reasons only: the command line does not
    normalise (the tokenizer's fault); [Popen] raises for what it is given
    (a program that cannot be started, a callable in place of a command
    line), also with [check=False]; a line of the output is not UTF-8
    ([UnicodeDecodeError], also with [check=False] and whatever the return
    code); or every line decodes, [check] is on and the return code is not
    zero ([RuntimeError]). *)
Theorem run_raises (popen : popen_t) (now : nat) (cmd : command) (check : bool)
    (e : exn) (Hraise : run popen now cmd check = Raise e) :
  cmd_for_exec cmd (ShellFlag false) = Raise e
  \/ (exists c, cmd_for_exec cmd (ShellFlag false) = Ret c /\ popen c = Raise e)
  \/ (exists c p texts reason rest,
        cmd_for_exec cmd (ShellFlag false) = Ret c /\ popen c = Ret p
        /\ ch_lines p = map Encoded texts ++ Undecodable reason :: rest
        /\ e = Exc UnicodeDecodeError reason)
  \/ (exists c p texts,
        cmd_for_exec cmd (ShellFlag false) = Ret c /\ popen c = Ret p
        /\ ch_lines p = map Encoded texts /\ check = true
        /\ ch_returncode p <> 0%Z /\ exn_cls e = RuntimeError).
Proof.
  unfold run in Hraise.
  destruct (cmd_for_exec cmd (ShellFlag false)) as [c|e'] eqn:Ec; simpl in Hraise.
  2: { left. by injection Hraise as ->. }
  right.
  assert (Hdisp : exists d, cmd_for_disp c = Ret d).
  { destruct c as [s|argv|f]; simpl; [|by eexists..].
    destruct cmd as [s'|l|f]; simpl in Ec; try done.
    by destruct (Shlex.split s'). }
  destruct Hdisp as [d Hd]. rewrite Hd in Hraise. simpl in Hraise.
  destruct (popen c) as [p|e'] eqn:Ep; simpl in Hraise.
  2: { left. exists c. by injection Hraise as ->. }
  right. pose proof (read_output_spec (ch_lines p) []) as Hout.
  destruct (read_output (ch_lines p) []) as [out|e'']; simpl in Hraise.
  - right. destruct Hout as (texts & Hlines & _). exists c, p, texts.
    destruct (Z.eqb_spec (ch_returncode p) 0); simpl in Hraise; [done|].
    destruct check; [|done]. by injection Hraise as <-.
  - left. destruct Hout as (texts & reason & rest & Hlines & ->).
    exists c, p, texts, reason, rest. by injection Hraise as <-.
Qed.

Lemma run_raises_witness :
  run (fun _ => Raise (Exc OSError "No such file or directory")) 0
      (CmdStr "nosuchprogram -x") false
  = Raise (Exc OSError "No such file or directory")
  /\ exists c,
       cmd_for_exec (CmdStr "nosuchprogram -x") (ShellFlag false) = Ret c
       /\ (fun _ : command => @Raise child (Exc OSError "No such file or directory")) c
          = Raise (Exc OSError "No such file or directory").
Proof.
  split; [reflexivity|].
  destruct (run_raises (fun _ => Raise (Exc OSError "No such file or directory")) 0
              (CmdStr "nosuchprogram -x") false _ eq_refl)
    as [H|[H|[(c & p & t & r & rest & _ & H & _)|(c & p & t & _ & H & _)]]]; try done.
Defined.

(** ** The verdict checker beyond the default pattern *)

Lemma returncodes_app js1 js2 :
  returncodes (js1 ++ js2)
  = do c1 <- returncodes js1; do c2 <- returncodes js2; Ret (c1 ++ c2).
Proof.
  induction js1 as [|j js1 IH]; simpl.
  - by destruct (returncodes js2).
  - destruct (j_returncode j); [|done]. rewrite IH.
    destruct (returncodes js1); simpl; [|done]. by destruct (returncodes js2).
Qed.

Lemma np_any_app c1 c2 : np_any (c1 ++ c2) = np_any c1 || np_any c2.
Proof. unfold np_any. apply existsb_app. Qed.

Lemma count_errors_app pat js1 js2 :
  count_errors pat (js1 ++ js2) = count_errors pat js1 + count_errors pat js2.
Proof. unfold count_errors. by rewrite map_app, list_sum_app. Qed.

(** X5: the verdict over two job sets put together is the conjunction of
    the two verdicts, for every pattern (or none); if checking either set
    raises, checking both raises the same fault. *)
Theorem all_successful_app (self : PooledCaller.t) (pat : option regex)
    (js1 js2 : list Job) :
  PooledCaller.all_successful self pat (Some (js1 ++ js2))
  = do b1 <- PooledCaller.all_successful self pat (Some js1);
    do b2 <- PooledCaller.all_successful self pat (Some js2);
    Ret (b1 && b2).
Proof.
  unfold PooledCaller.all_successful, all_successful_of.
  rewrite returncodes_app.
  destruct (returncodes js1) as [c1|]; simpl; [|done].
  destruct (returncodes js2) as [c2|]; simpl; [|done].
  rewrite np_any_app. f_equal.
  destruct pat as [pat|].
  - rewrite count_errors_app.
    destruct (np_any c1), (np_any c2); simpl; try done;
      destruct (count_errors pat js1), (count_errors pat js2); simpl;
      by rewrite ?andb_false_r.
  - simpl. by destruct (np_any c1), (np_any c2).
Qed.

Lemma returncodes_raises jobs :
  (returncodes jobs = Raise (Exc KeyError "'returncode'")
   <-> Exists (fun j => j_returncode j = None) jobs)
  /\ ((exists codes, returncodes jobs = Ret codes)
      <-> Forall (fun j => is_Some (j_returncode j)) jobs).
Proof.
  induction jobs as [|j jobs [IH1 IH2]]; simpl.
  - split; split; try done.
    + intros H. inversion H.
    + by exists [].
  - destruct (j_returncode j) as [c|] eqn:E.
    + destruct (returncodes jobs) as [cs|e] eqn:Er; simpl.
      * split; split.
        -- done.
        -- intros H. apply Exists_cons in H as [H|H]; [congruence|].
           by apply IH1 in H.
        -- intros _. constructor; [by rewrite E|]. apply IH2. by exists cs.
        -- by exists (c :: cs).
      * split; split.
        -- intros [= ->]. apply Exists_cons. right. by apply IH1.
        -- intros H. apply Exists_cons in H as [H|H]; [congruence|].
           apply IH1 in H. by rewrite H.
        -- by intros [? ?].
        -- intros H. apply Forall_cons in H as [_ H]. apply IH2 in H as [? ?]. done.
    + split; split.
      * intros _. apply Exists_cons. by left.
      * done.
      * by intros [? ?].
      * intros H. apply Forall_cons in H as [[? H] _]. congruence.
Qed.

(** X6: [all_successful] raises exactly when some job of the set has no
    return code yet (a job that was dispatched but not seen finished); the
    fault is [KeyError('returncode')], whatever the pattern.  Otherwise it
    returns a verdict. *)
Theorem all_successful_missing_returncode (self : PooledCaller.t)
    (pat : option regex) (jobs : option (list Job)) :
  (PooledCaller.all_successful self pat jobs = Raise (Exc KeyError "'returncode'")
   <-> Exists (fun j => j_returncode j = None) (default (PooledCaller._log self) jobs))
  /\ ((exists b, PooledCaller.all_successful self pat jobs = Ret b)
      <-> Forall (fun j => is_Some (j_returncode j))
                 (default (PooledCaller._log self) jobs)).
Proof.
  unfold PooledCaller.all_successful, all_successful_of.
  replace (match jobs with Some l => l | None => PooledCaller._log self end)
    with (default (PooledCaller._log self) jobs) by by destruct jobs.
  destruct (returncodes_raises (default (PooledCaller._log self) jobs)) as [H1 H2].
  rewrite <- H1, <- H2.
  destruct (returncodes _) as [codes|e]; simpl; split; split; try done;
    try (by intros [? ?]); try (by intros [= ->]); intros _; by eexists.
Qed.

(** ** The callable executor and the verdict *)


Lemma one_line_shift m : one_line m = true ->
  forall cur post, splitlines_from cur (m +:+ post) = splitlines_from (cur +:+ m) post.
Proof.
  induction m as [|c m IH]; intros Hm cur post.
  - by rewrite sapp_nil_l, sapp_nil_r.
  - simpl in Hm. apply andb_true_iff in Hm as [Hc Hm]. apply negb_true_iff in Hc.
    rewrite sapp_cons. simpl. rewrite Hc, (IH Hm).
    unfold snoc. by rewrite sapp_assoc.
Qed.

Lemma splitlines_from_head post : forall cur, cur <> EmptyString ->
  exists u rest, splitlines_from cur post = (cur +:+ u) :: rest.
Proof.
  induction post as [|c post IH]; intros cur Hcur; simpl.
  - destruct (String.eqb_spec cur EmptyString); [done|].
    exists EmptyString, []. by rewrite sapp_nil_r.
  - destruct (linebreak c).
    + destruct post as [|c2 post].
      * by exists (String c EmptyString), [].
      * destruct (_ && _).
        -- exists (String c (String c2 EmptyString)). eexists.
           unfold snoc. by rewrite sapp_assoc.
        -- exists (String c EmptyString). by eexists.
    + destruct (IH (snoc cur c) (snoc_not_empty _ _)) as (u & rest & ->).
      exists (String c u), rest. by rewrite snoc_app.
Qed.

(** A piece of text without line boundaries stays within one line. *)
Lemma splitlines_from_keeps m (Hm : one_line m = true) (Hne : m <> EmptyString) n :
  forall pre post cur, String.length pre <= n ->
    Exists (occurs_in m) (splitlines_from cur (pre +:+ m +:+ post)).
Proof.
  induction n as [|n IH]; intros pre post cur Hn.
  - destruct pre; [|simpl in Hn; lia]. rewrite sapp_nil_l, one_line_shift by done.
    destruct (splitlines_from_head post (cur +:+ m)) as (u & rest & ->).
    { destruct cur; [done|]. done. }
    apply Exists_cons. left. exists cur, u. by rewrite sapp_assoc.
  - destruct pre as [|c pre].
    { apply (IH EmptyString). simpl. lia. }
    simpl in Hn. rewrite sapp_cons. simpl. destruct (linebreak c).
    + destruct (pre +:+ m +:+ post) as [|c2 rest2] eqn:E.
      { destruct pre; [by destruct m | done]. }
      destruct (Ascii.eqb c CR && Ascii.eqb c2 LF) eqn:Ecr.
      * apply Exists_cons. right.
        apply andb_true_iff in Ecr as [_ Elf]. apply Ascii.eqb_eq in Elf. subst c2.
        destruct pre as [|c2 pre].
        -- destruct m as [|a m]; [done|]. rewrite sapp_nil_l, sapp_cons in E.
           injection E as -> _. simpl in Hm. discriminate Hm.
        -- rewrite sapp_cons in E. injection E as _ <-. apply IH. simpl in Hn. lia.
      * apply Exists_cons. right. rewrite <- E. apply IH. lia.
    + apply IH. lia.
Qed.

Lemma splitlines_keeps m t :
  one_line m = true -> m <> EmptyString -> occurs_in m t ->
  Exists (occurs_in m) (splitlines t).
Proof.
  intros Hm Hne (pre & post & ->).
  by apply (splitlines_from_keeps m Hm Hne (String.length pre)).
Qed.

(** X8: the output a faulting callable leaves behind is always flagged by
    the default error pattern: one of the lines its worker puts on the
    channel has the word Error of the diagnostic, so [all_successful] with
    the default pattern does not return true for any job set with a job
    that carries these lines, whatever return codes are recorded. *)
Theorem faulting_callable_is_flagged
    (idx : nat) (f : callable) (args : list pyval) (kw : kwargs) (e : exn)
    (Hraise : b_result (fn_call f args kw) = Raise e)
    (Hexc : is_Exception (exn_cls e) = true) :
  exists lines,
    wr_puts (_callable_wrapper idx f args kw)
    = [ {| e_idx := idx; e_value := PyNone; e_output := Some lines |} ]
    /\ Exists (fun line => default_error_pattern line = true) lines
    /\ forall self jobs j, j ∈ jobs -> j_output j = lines ->
         PooledCaller.all_successful self (Some default_error_pattern) (Some jobs)
         <> Ret true.
Proof.
  eexists. split.
  { unfold _callable_wrapper. rewrite Hraise, Hexc. reflexivity. }
  assert (Hflag : Exists (fun line => default_error_pattern line = true)
            (splitlines (b_stdout (fn_call f args kw))
             ++ splitlines (b_stderr (fn_call f args kw) +:+ fault_diagnostic idx e))).
  { apply Exists_app. right.
    eapply Exists_impl; [apply (splitlines_keeps "Error"); [done|done|]|].
    - exists (b_stderr (fn_call f args kw) +:+ ">> "),
             (" occurs in job#" +:+ str_of_nat idx +:+ NL
                +:+ "** ERROR: " +:+ exn_str e +:+ NL).
      unfold fault_diagnostic. by rewrite !sapp_assoc.
    - intros line (pre & post & ->). apply default_error_pattern_spec.
      exists pre, "Error", post. split; [done|]. by left. }
  split; [exact Hflag|].
  intros self jobs j Hj Hout Hok. unfold PooledCaller.all_successful in Hok.
  apply all_successful_of_true in Hok.
  rewrite Forall_forall in Hok. destruct (Hok j Hj) as [_ Hlines].
  rewrite Hout in Hlines. rewrite Forall_forall in Hlines.
  apply Exists_exists in Hflag as (line & Hin & Hline).
  rewrite (Hlines line Hin) in Hline. discriminate Hline.
Qed.

Lemma faulting_callable_is_flagged_witness :
  b_result (fn_call Sample.boom [] []) = Raise (Exc ValueError "bad input")
  /\ is_Exception ValueError = true
  /\ exists lines,
       wr_puts (_callable_wrapper 3 Sample.boom [] [])
       = [ {| e_idx := 3; e_value := PyNone; e_output := Some lines |} ]
       /\ Exists (fun line => default_error_pattern line = true) lines.
Proof.
  split; [reflexivity|]. split; [reflexivity|].
  destruct (faulting_callable_is_flagged 3 Sample.boom [] []
              (Exc ValueError "bad input") eq_refl eq_refl)
    as (lines & Hp & Hf & _).
  by exists lines.
Defined.

(** ** The batching helper with a given batch size *)

Lemma idss_given (self : PooledCaller.t) (total b : Z) :
  (1 <= b)%Z -> (0 <= total)%Z ->
  PooledCaller.idss self total (Some b) = Ret (map Ret (batches total b)).
Proof. intros Hb Ht. unfold PooledCaller.idss. simpl. by apply idss_positive. Qed.

(** X9: with a batch size [b >= 1] given, [idss] does not look at the pool
    size: for every [total >= 0] it yields [ceil(total / b)] ranges of step
    one that list 0 .. total-1 in order, each with [b] indices except
    possibly the last; for [total = 0] it yields nothing. *)
Theorem idss_given_batch_size (self : PooledCaller.t) (total b : Z)
    (Hb : (1 <= b)%Z) (Htotal : (0 <= total)%Z) :
  exists g rs,
    PooledCaller.idss self total (Some b) = Ret g
    /\ iterate g = Ret rs
    /\ concat (map range_elems rs) = interval 0 total
    /\ (forall i r, rs !! i = Some r ->
          range_elems r = interval (Z.of_nat i * b) (Z.min (Z.of_nat i * b + b) total)
          /\ (1 <= length (range_elems r) <= Z.to_nat b)
          /\ (S i < length rs -> length (range_elems r) = Z.to_nat b))
    /\ Z.of_nat (length rs) = ((total + b - 1) / b)%Z.
Proof.
  exists (map Ret (batches total b)), (batches total b).
  rewrite idss_given by done. split; [done|]. split; [apply iterate_rets|].
  destruct (Z.eq_dec total 0%Z) as [->|Hne].
  - assert (Hnil : batches 0 b = []).
    { unfold batches. replace ((0 - 1) / b)%Z with (-1)%Z; [done|].
      apply (Z.div_unique (0 - 1) b (-1) (b - 1)); lia. }
    rewrite Hnil. simpl. split; [done|]. split; [done|].
    symmetry. apply Z.div_small. lia.
  - assert (Ht : (1 <= total)%Z) by lia.
    split; [by apply batches_cover|].
    pose proof (batches_length total b Hb Ht) as Hlen.
    pose proof (Z.mul_div_le (total - 1) b ltac:(lia)) as Hq.
    pose proof (Z.div_pos (total - 1) b ltac:(lia) ltac:(lia)) as Hq0.
    split.
    + intros i r Hr. apply batches_lookup in Hr as [Hi ->].
      rewrite range_elems_unit, interval_length.
      assert (Z.of_nat i * b <= total - 1)%Z by nia.
      split; [done|]. split; [lia|]. intros Hlast.
      assert (Z.of_nat i + 1 <= (total - 1) / b)%Z by lia.
      assert ((Z.of_nat i + 1) * b <= total - 1)%Z by nia. lia.
    + rewrite Hlen. replace (total + b - 1)%Z with (total - 1 + 1 * b)%Z by lia.
      rewrite Z.div_add by lia. done.
Qed.

Lemma idss_given_batch_size_witness :
  (1 <= 4)%Z /\ (0 <= 10)%Z
  /\ exists g rs,
       PooledCaller.idss (PooledCaller.__init__ Sample.world (Some 0%Z)) 10 (Some 4%Z)
       = Ret g
       /\ iterate g = Ret rs
       /\ concat (map range_elems rs) = interval 0 10
       /\ Z.of_nat (length rs) = 3%Z.
Proof.
  assert (H1 : (1 <= 4)%Z) by lia. assert (H2 : (0 <= 10)%Z) by lia.
  split; [exact H1|]. split; [exact H2|].
  destruct (idss_given_batch_size
              (PooledCaller.__init__ Sample.world (Some 0%Z)) 10 4 H1 H2)
    as (g & rs & Hg & Hrs & Hcover & _ & Hlen).
  by exists g, rs.
Defined.

(** X10: a batch size that is not positive never yields a range: with
    batch size 0 the call raises [ValueError], with a negative one it
    returns a generator that is empty, so nothing of 0 .. total-1 is
    covered and no fault tells. *)
Theorem idss_nonpositive_batch_size (self : PooledCaller.t) (total b : Z)
    (Hb : (b <= 0)%Z) (Htotal : (0 <= total)%Z) :
  PooledCaller.idss self total (Some b)
  = if (b =? 0)%Z
    then Raise (Exc ValueError "range() arg 3 must not be zero")
    else Ret [].
Proof. unfold PooledCaller.idss. simpl. by apply idss_not_positive. Qed.

Lemma idss_nonpositive_batch_size_witness :
  (-3 <= 0)%Z /\ (0 <= 10)%Z
  /\ PooledCaller.idss (PooledCaller.__init__ Sample.world (Some 2%Z)) 10 (Some (-3)%Z)
     = Ret [].
Proof.
  assert (H1 : (-3 <= 0)%Z) by lia. assert (H2 : (0 <= 10)%Z) by lia.
  split; [exact H1|]. split; [exact H2|].
  exact (idss_nonpositive_batch_size
           (PooledCaller.__init__ Sample.world (Some 2%Z)) 10 (-3) H1 H2).
Defined.

(** X11: in a pool whose size is not positive the default batch size is
    of no use, whatever the total: with pool size 0 [idss] raises
    [ZeroDivisionError], and with a negative pool size the batch size
    computed is never positive, so that the call raises or returns an
    empty generator; no range is ever produced. *)
Theorem idss_without_slots (self : PooledCaller.t) (total : Z)
    (Hpool : (PooledCaller.pool_size self <= 0)%Z) (Htotal : (0 <= total)%Z) :
  (PooledCaller.pool_size self = 0%Z ->
     PooledCaller.idss self total None
     = Raise (Exc ZeroDivisionError "division by zero"))
  /\ (forall g, PooledCaller.idss self total None = Ret g -> g = []).
Proof.
  split.
  - intros E. unfold PooledCaller.idss, Float64.int_truediv. by rewrite E.
  - intros g. unfold PooledCaller.idss.
    destruct (Float64.int_truediv total (PooledCaller.pool_size self)) as [q|e] eqn:Eq;
      [|done].
    assert (Hneg : (PooledCaller.pool_size self < 0)%Z).
    { destruct (Z.eq_dec (PooledCaller.pool_size self) 0%Z) as [E|]; [|lia].
      unfold Float64.int_truediv in Eq. by rewrite E in Eq. }
    pose proof (Float64Facts.batch_size_not_positive _ _ _ Htotal Hneg Eq) as Hb.
    cbn [bind]. rewrite (idss_not_positive self) by done.
    destruct (_ =? 0)%Z; [done|]. by intros [= <-].
Qed.

Lemma idss_without_slots_witness :
  (PooledCaller.pool_size (PooledCaller.__init__ Sample2.one_cpu_world None) <= 0)%Z
  /\ (0 <= 7)%Z
  /\ PooledCaller.idss (PooledCaller.__init__ Sample2.one_cpu_world None) 7 None
     = Raise (Exc ZeroDivisionError "division by zero").
Proof.
  assert (H1 : (PooledCaller.pool_size
                  (PooledCaller.__init__ Sample2.one_cpu_world None) <= 0)%Z)
    by (vm_compute; discriminate).
  assert (H2 : (0 <= 7)%Z) by lia.
  split; [exact H1|]. split; [exact H2|].
  exact (proj1 (idss_without_slots _ 7 H1 H2) eq_refl).
Defined.

(** ** The bookkeeping of a batch *)

Section Bookkeeping.
Import PooledCaller Frame.

Lemma same_batch_refl s : same_batch s s.
Proof. by split. Qed.

Lemma same_batch_trans s1 s2 s3 : same_batch s1 s2 -> same_batch s2 s3 -> same_batch s1 s3.
Proof. intros [] []. split; congruence. Qed.

Lemma same_batch_update_job r f s : same_batch s (update_job r f s).
Proof. split; simpl; try done. apply length_alter. Qed.

Lemma same_batch_deliver w s : same_batch s (deliver w s).
Proof. by split. Qed.

Lemma same_batch_sleep w s : same_batch s (sleep w s).
Proof. by split. Qed.

Lemma same_batch_async_get_res s ress s' ress' :
  _async_get_res s ress = Ret (s', ress') -> same_batch s s'.
Proof.
  unfold _async_get_res. intros H.
  destruct (res_queue s) as [|res rest]; [by injection H as <- _|].
  destruct (e_output res) as [output|]; [|by injection H as <- _].
  destruct (_ !! _) as [pid|]; [|done]. simpl in H.
  destruct (dict_get pid _) as [r|]; [|done]. injection H as <- _.
  split; simpl; try done. apply length_alter.
Qed.

Lemma same_batch_poll_one w p s s' : poll_one w p s = Ret s' -> same_batch s s'.
Proof.
  unfold poll_one. intros H.
  destruct (dict_get (p_pid p) (_pid2job s)) as [r|]; [|done].
  destruct (_log s !! r) as [job|]; [|done].
  destruct (os_exited w (clock s) (p_ref p)); [|by injection H as <-].
  destruct (p_kind p).
  - destruct (j_watcher job); [|done]. injection H as <-.
    split; simpl; try done. by rewrite !length_alter.
  - injection H as <-. split; simpl; try done. by rewrite length_alter.
Qed.

Lemma same_batch_poll_from fuel w : forall i s s',
  poll_from fuel w i s = Ret s' -> same_batch s s'.
Proof.
  induction fuel as [|fuel IH]; intros i s s' H; simpl in H.
  - injection H as <-. apply same_batch_refl.
  - destruct (ps s !! i) as [p|]; [|injection H as <-; apply same_batch_refl].
    destruct (poll_one w p s) as [s1|] eqn:E; simpl in H; [|done].
    eapply same_batch_trans; [by eapply same_batch_poll_one | by eapply IH].
Qed.

Lemma dict_get_set_eq {V} k (v : V) d : dict_get k (dict_set k v d) = Some v.
Proof.
  induction d as [|[k' v'] d IH]; simpl.
  - by rewrite Nat.eqb_refl.
  - destruct (Nat.eqb_spec k k'); simpl; [by rewrite Nat.eqb_refl|].
    destruct (Nat.eqb_spec k k'); [done | exact IH].
Qed.

Lemma dict_get_set_ne {V} k k' (v : V) d :
  k <> k' -> dict_get k' (dict_set k v d) = dict_get k' d.
Proof.
  intros Hne. induction d as [|[k1 v1] d IH]; simpl.
  - destruct (Nat.eqb_spec k' k); [congruence | done].
  - destruct (Nat.eqb_spec k k1) as [<-|]; simpl.
    + destruct (Nat.eqb_spec k' k); [congruence | done].
    + destruct (Nat.eqb_spec k' k1); [done | exact IH].
Qed.

(** Everything one round of [dispatch] changes. *)
Lemma dispatch_body_effect w s s' :
  dispatch_body w s = Ret s' ->
  exists idx cmd args kw p job,
    cmd_queue s = (idx, cmd, args, kw) :: cmd_queue s'
    /\ ps s' = ps s ++ [p]
    /\ _log s' = _log s ++ [job]
    /\ cmd_for_disp cmd = Ret (j_cmd job)
    /\ p_ref p = length (_log s)
    /\ (p_kind p = Process <-> exists f, cmd = CmdCallable f)
    /\ job = {| j_idx := idx; j_cmd := j_cmd job; j_output := [];
                j_start_time := clock s; j_pid := p_pid p;
                j_stop_time := None; j_returncode := None;
                j_watcher := match p_kind p with Popen => true | Process => false end |}
    /\ _idx2pid s' = <[idx := p_pid p]> (_idx2pid s)
    /\ _pid2job s' = dict_set (p_pid p) (length (_log s)) (_pid2job s)
    /\ _n_cmds s' = _n_cmds s /\ pool_size s' = pool_size s /\ clock s' = clock s.
Proof.
  unfold dispatch_body. intros H.
  destruct (cmd_queue s) as [|[[[idx cmd] args] kw] rest] eqn:Eq; [done|].
  destruct (cmd_for_disp cmd) as [disp|] eqn:Ed; simpl in H; [|done].
  exists idx, cmd, args, kw.
  destruct cmd as [c|l|f]; simpl in H.
  1,2: destruct (os_popen w _ _ kw) as [pid|]; simpl in H; [|done].
  all: injection H as <-; eexists _, _.
  all: do 3 (split; [reflexivity|]); split; [exact Ed|]; simpl.
  all: split; [reflexivity|]; split; [|by repeat split].
  all: split; first [done | by intros [? ?] | intros; by eexists].
Qed.

Lemma new_pool_batch_ok w k : batch_ok (__init__ w k).
Proof.
  unfold batch_ok. simpl. split; [done|]. split; [done|].
  intros i. rewrite lookup_empty. split; [by intros [? ?] | lia].
Qed.

Lemma run_batch_ok s cmd args kw s' :
  run s cmd args kw = Ret s' -> batch_ok s -> batch_ok s'.
Proof.
  unfold run. intros H (Hle & Hq & Hreg).
  destruct (cmd_for_exec cmd (ShellKwargs kw)) as [c|]; simpl in H; [|done].
  injection H as <-. unfold batch_ok. simpl.
  rewrite length_app, map_app, Hq. simpl. rewrite Nat.add_1_r.
  split; [lia|]. split.
  - rewrite seq_S. simpl. f_equal. unfold queued_idx. simpl. f_equal. lia.
  - intros i. rewrite Hreg. simpl. lia.
Qed.

Lemma dispatch_body_batch_ok w s s' :
  dispatch_body w s = Ret s' -> batch_ok s -> batch_ok s'.
Proof.
  intros H (Hle & Hq & Hreg).
  apply dispatch_body_effect in H
    as (idx & cmd & args & kw & p & job & Hqueue & _ & _ & _ & _ & _ & _ & Hi & _ & Hn & _).
  rewrite Hqueue in Hle, Hq, Hreg. simpl in Hle, Hq, Hreg.
  injection Hq as Hidx Hrest. unfold queued_idx in Hidx. simpl in Hidx.
  unfold batch_ok. rewrite Hn, Hi. split; [lia|]. split.
  - rewrite Hrest. f_equal. lia.
  - intros i. rewrite lookup_insert_is_Some, Hreg. subst idx.
    destruct (decide (_n_cmds s - S (length (cmd_queue s')) = i)); [lia|]. lia.
Qed.

Lemma dispatch_loop_batch_ok fuel w : forall s s',
  dispatch_loop fuel w s = Ret s' -> batch_ok s -> batch_ok s'.
Proof.
  induction fuel as [|fuel IH]; intros s s' H Hok; simpl in H.
  - by injection H as <-.
  - destruct (dispatch_guard s); [|by injection H as <-].
    destruct (dispatch_body w s) as [s1|] eqn:E; simpl in H; [|done].
    eapply IH; [done|]. by eapply dispatch_body_batch_ok.
Qed.

Lemma seq_NoDup a n : NoDup (seq a n).
Proof.
  revert a. induction n as [|n IH]; intros a; simpl; constructor; [|apply IH].
  intros H. apply list_elem_of_In, in_seq in H. lia.
Qed.

(** X12: the indices of a batch are never reused.  In a pool built by
    [__init__], [run], [dispatch] and [wait], the queue holds consecutive
    indices ending at [_n_cmds - 1], the indices registered in [_idx2pid]
    are exactly the smaller ones, so no queued index is registered and no
    two queued jobs share an index; [run], [dispatch] and a completed
    [wait] keep it so. *)
Theorem batch_indices_unique (self : t) (Hok : batch_ok self) :
  NoDup (map queued_idx (cmd_queue self))
  /\ Forall (fun q => queued_idx q < _n_cmds self
                      /\ _idx2pid self !! queued_idx q = None) (cmd_queue self)
  /\ (forall cmd args kw s', run self cmd args kw = Ret s' ->
        batch_ok s' /\ queued_idx <$> last (cmd_queue s') = Some (_n_cmds self))
  /\ (forall w s', dispatch w self = Ret s' -> batch_ok s')
  /\ (forall fuel w k rc rj r s',
        wait fuel w self k rc rj = Some (Ret (r, s')) -> batch_ok s').
Proof.
  destruct Hok as (Hle & Hq & Hreg).
  split; [rewrite Hq; apply seq_NoDup|]. split; [|split; [|split]].
  - apply Forall_forall. intros q Hin.
    assert (Hi : queued_idx q ∈ seq (_n_cmds self - length (cmd_queue self))
                                    (length (cmd_queue self))).
    { rewrite <- Hq. by apply list_elem_of_fmap_2. }
    apply list_elem_of_In, in_seq in Hi. split; [lia|].
    apply eq_None_not_Some. rewrite Hreg. lia.
  - intros cmd args kw s' H. split; [by eapply run_batch_ok|].
    unfold run in H.
    destruct (cmd_for_exec cmd (ShellKwargs kw)) as [c|]; simpl in H; [|done].
    injection H as <-. simpl. by rewrite last_snoc.
  - intros w s' H. by eapply dispatch_loop_batch_ok.
  - intros fuel w k rc rj r s' H.
    apply wait_returns in H as (s & _ & _ & Hqs & ->).
    assert (Hreset : batch_ok (set_pid2job [] (set_idx2pid ∅ (set_n_cmds 0 s)))).
    { unfold batch_ok. simpl. rewrite Hqs. simpl. split; [done|]. split; [done|].
      intros i. rewrite lookup_empty. split; [by intros [? ?] | lia]. }
    by destruct k.
Qed.

Lemma batch_indices_unique_witness :
  batch_ok Sample.three_commands
  /\ NoDup (map queued_idx (cmd_queue Sample.three_commands)).
Proof.
  assert (H : batch_ok Sample.three_commands).
  { unfold batch_ok. simpl. split; [lia|]. split; [reflexivity|].
    intros i. rewrite lookup_empty. split; [by intros [? ?] | lia]. }
  split; [exact H|]. exact (proj1 (batch_indices_unique _ H)).
Defined.

End Bookkeeping.

(** ** [dispatch]: order, amount and registration *)

Section Dispatch.
Import PooledCaller Frame.

Lemma dispatch_loop_fifo fuel w : forall s s',
  dispatch_loop fuel w s = Ret s' ->
  exists started procs,
    cmd_queue s = started ++ cmd_queue s'
    /\ ps s' = ps s ++ procs
    /\ length procs = length started
    /\ map p_ref procs = seq (length (_log s)) (length started)
    /\ map j_idx (_log s') = map j_idx (_log s) ++ map queued_idx started
    /\ clock s' = clock s.
Proof.
  induction fuel as [|fuel IH]; intros s s' H; simpl in H.
  - injection H as <-. exists [], []. by rewrite !app_nil_r.
  - destruct (dispatch_guard s).
    2: { injection H as <-. exists [], []. by rewrite !app_nil_r. }
    destruct (dispatch_body w s) as [s1|] eqn:E; simpl in H; [|done].
    apply dispatch_body_effect in E
      as (idx & cmd & args & kw & p & job & Hq & Hps & Hlog & _ & Href & _ & Hjob
          & _ & _ & _ & _ & Hclock).
    destruct (IH _ _ H) as (started & procs & Hq' & Hps' & Hlen & Hrefs & Hidx & Hc).
    exists ((idx, cmd, args, kw) :: started), (p :: procs).
    rewrite Hq, Hq', Hps', Hps, Hidx, Hlog, Hc, Hclock, map_app, <- !app_assoc.
    simpl. rewrite Hlen, Hrefs, Hlog, length_app, Href. simpl.
    rewrite Nat.add_1_r. repeat split; try done.
    by rewrite Hjob.
Qed.

(** X13: [dispatch] starts the queued jobs in submission order and stops
    only when the pool is full or the queue is empty: what it takes is a
    prefix of the queue, the processes are appended to the running set and
    the jobs to the history in that order, and from a pool that fits its
    size the number started is the smaller of the queue length and the
    number of free slots. *)
Theorem dispatch_fifo w self s' (Hdispatch : dispatch w self = Ret s') :
  exists started procs,
    cmd_queue self = started ++ cmd_queue s'
    /\ ps s' = ps self ++ procs
    /\ length procs = length started
    /\ map j_idx (_log s') = map j_idx (_log self) ++ map queued_idx started
    /\ ((pool_size self <= Z.of_nat (length (ps s')))%Z \/ cmd_queue s' = [])
    /\ (within_pool self ->
          Z.of_nat (length started)
          = Z.min (Z.of_nat (length (cmd_queue self)))
                  (pool_size self - Z.of_nat (length (ps self))))%Z.
Proof.
  pose proof (dispatch_fills _ _ _ Hdispatch) as Hfull.
  pose proof (proj2 (dispatch_states_steady _ w self) _ Hdispatch) as [[[Hp _] Hin] _].
  destruct (dispatch_loop_fifo _ _ _ _ Hdispatch)
    as (started & procs & Hq & Hps & Hlen & _ & Hidx & _).
  exists started, procs. repeat (split; [done|]).
  assert (Hstop : (pool_size self <= Z.of_nat (length (ps s')))%Z \/ cmd_queue s' = []).
  { unfold dispatch_guard in Hfull. apply andb_false_iff in Hfull as [H|H].
    - left. apply Z.ltb_ge in H. by rewrite <- Hp.
    - right. apply Nat.ltb_ge in H. apply length_zero_iff_nil. lia. }
  split; [exact Hstop|]. intros Hfits. specialize (Hin Hfits).
  unfold within_pool in Hfits, Hin. rewrite Hp in Hin.
  rewrite Hq, length_app. rewrite Hps, length_app, Hlen in Hin, Hstop.
  destruct Hstop as [H|H]; [lia|]. rewrite H. simpl. lia.
Qed.

Lemma dispatch_fifo_witness :
  exists s',
    dispatch Sample.world Sample.three_commands = Ret s'
    /\ length (ps s') = 2 /\ length (cmd_queue s') = 1.
Proof.
  destruct (dispatch Sample.world Sample.three_commands) as [s'|e] eqn:E.
  - exists s'. split; [reflexivity|].
    destruct (dispatch_fifo _ _ _ E) as (started & procs & Hq & Hps & Hlen & _ & _ & Hn).
    assert (Hfits : within_pool Sample.three_commands)
      by (unfold within_pool; vm_compute; discriminate).
    specialize (Hn Hfits). change (Z.of_nat (length started) = 2%Z) in Hn.
    apply (f_equal (@length _)) in Hq, Hps.
    rewrite length_app in Hq, Hps. rewrite Hlen in Hps.
    change (3 = length started + length (cmd_queue s')) in Hq.
    change (length (ps s') = 0 + length started) in Hps. lia.
  - vm_compute in E. discriminate E.
Defined.

(** X14: a job just started can be found through the maps: its index
    leads to its pid, the pid to the job record, which is the new last
    record of the log and carries the index, the pid, the display form of
    the command and the start time, and has no stop time and no return
    code yet; what was registered under other indices and pids stays, and
    so do the indices of the older records. *)
Theorem dispatch_registers w self s' (Hstart : dispatch_body w self = Ret s') :
  exists idx cmd args kw pid job,
    cmd_queue self = (idx, cmd, args, kw) :: cmd_queue s'
    /\ _idx2pid s' !! idx = Some pid
    /\ dict_get pid (_pid2job s') = Some (length (_log self))
    /\ _log s' !! length (_log self) = Some job
    /\ j_idx job = idx /\ j_pid job = pid /\ j_start_time job = clock self
    /\ cmd_for_disp cmd = Ret (j_cmd job)
    /\ j_stop_time job = None /\ j_returncode job = None
    /\ (forall i, i <> idx -> _idx2pid s' !! i = _idx2pid self !! i)
    /\ (forall pid', pid' <> pid ->
          dict_get pid' (_pid2job s') = dict_get pid' (_pid2job self))
    /\ map j_idx (_log s') = map j_idx (_log self) ++ [idx].
Proof.
  apply dispatch_body_effect in Hstart
    as (idx & cmd & args & kw & p & job & Hq & _ & Hlog & Hdisp & _ & _ & Hjob
        & Hi & Hp & _).
  exists idx, cmd, args, kw, (p_pid p), job.
  rewrite Hi, Hp, Hlog. split; [done|].
  split; [apply lookup_insert_eq|]. split; [apply dict_get_set_eq|].
  split; [by rewrite lookup_app_r, Nat.sub_diag|].
  assert (Hidx : j_idx job = idx) by (by rewrite Hjob).
  split; [done|]. split; [by rewrite Hjob|]. split; [by rewrite Hjob|].
  split; [done|]. split; [by rewrite Hjob|]. split; [by rewrite Hjob|].
  split; [|split].
  - intros i Hne. by apply lookup_insert_ne.
  - intros pid' Hne. apply dict_get_set_ne. congruence.
  - rewrite map_app. simpl. by rewrite Hidx.
Qed.

Lemma dispatch_registers_witness :
  exists s' idx pid job,
    dispatch_body Sample.world Sample.three_commands = Ret s'
    /\ _idx2pid s' !! idx = Some pid
    /\ dict_get pid (_pid2job s') = Some 0
    /\ _log s' !! 0 = Some job
    /\ j_idx job = idx /\ j_pid job = pid.
Proof.
  destruct (dispatch_body Sample.world Sample.three_commands) as [s'|e] eqn:E.
  - destruct (dispatch_registers _ _ _ E)
      as (idx & cmd & args & kw & pid & job & Hq & Hi & Hp & Hl & Hidx & Hpid & _).
    by exists s', idx, pid, job.
  - vm_compute in E. discriminate E.
Defined.

End Dispatch.

(** ** Polling *)

Section Polling.
Import PooledCaller Frame.

Lemma remove_proc_subset p l q : q ∈ remove_proc p l -> q ∈ l.
Proof.
  induction l as [|a l IH]; simpl; [done|].
  destruct (p_ref p =? p_ref a)%nat.
  - intros H. by apply list_elem_of_further.
  - intros H. apply elem_of_cons in H as [->|H]; [apply list_elem_of_here|].
    apply list_elem_of_further. by apply IH.
Qed.

Lemma remove_proc_other p l q :
  q ∈ l -> p_ref q <> p_ref p -> q ∈ remove_proc p l.
Proof.
  intros Hin Hne. induction l as [|a l IH]; simpl; [done|].
  apply elem_of_cons in Hin as [<-|Hin].
  - destruct (Nat.eqb_spec (p_ref p) (p_ref q)); [congruence|].
    apply list_elem_of_here.
  - destruct (p_ref p =? p_ref a)%nat; [done|].
    apply list_elem_of_further. by apply IH.
Qed.

Lemma remove_proc_head p l : remove_proc p (p :: l) = l.
Proof. simpl. by rewrite Nat.eqb_refl. Qed.

Lemma poll_one_ps w p s s' :
  poll_one w p s = Ret s' ->
  clock s' = clock s
  /\ (if os_exited w (clock s) (p_ref p)
      then ps s' = remove_proc p (ps s)
      else ps s' = ps s).
Proof.
  unfold poll_one. intros H.
  destruct (dict_get (p_pid p) (_pid2job s)) as [r|]; [|done].
  destruct (_log s !! r) as [job|]; [|done].
  destruct (os_exited w (clock s) (p_ref p)); [|by injection H as <-].
  destruct (p_kind p).
  - destruct (j_watcher job); [|done]. by injection H as <-.
  - by injection H as <-.
Qed.

Lemma poll_from_spares fuel w : forall i s s',
  poll_from fuel w i s = Ret s' ->
  clock s' = clock s
  /\ (forall q, q ∈ ps s -> os_exited w (clock s) (p_ref q) = false -> q ∈ ps s')
  /\ (forall q, q ∈ ps s' -> q ∈ ps s).
Proof.
  induction fuel as [|fuel IH]; intros i s s' H; simpl in H.
  - by injection H as <-.
  - destruct (ps s !! i) as [p|]; [|by injection H as <-].
    destruct (poll_one w p s) as [s1|] eqn:E; simpl in H; [|done].
    apply poll_one_ps in E as [Hc Hps].
    destruct (IH _ _ _ H) as (Hc' & Hkeep & Hsub). rewrite Hc in Hc', Hkeep.
    split; [done|]. split.
    + intros q Hq Hrun. apply Hkeep; [|done].
      destruct (os_exited w (clock s) (p_ref p)) eqn:Ep; rewrite Hps; [|done].
      apply remove_proc_other; [done|]. intros Heq. congruence.
    + intros q Hq. apply Hsub in Hq.
      destruct (os_exited w (clock s) (p_ref p)); rewrite Hps in Hq; [|done].
      by eapply remove_proc_subset.
Qed.

(** X15: polling never drops a process that is still running and never
    adds one: every process of the running set that has not terminated is
    still in the set afterwards, everything in the set afterwards was in
    it before, and the clock does not move.  If the first process of the
    set has terminated, it is collected. *)
Theorem poll_spares_running w self s' (Hpoll : poll w self = Ret s') :
  clock s' = clock self
  /\ (forall q, q ∈ ps self -> os_exited w (clock self) (p_ref q) = false ->
        q ∈ ps s')
  /\ (forall q, q ∈ ps s' -> q ∈ ps self)
  /\ (forall p rest, ps self = p :: rest ->
        os_exited w (clock self) (p_ref p) = true ->
        length (ps s') < length (ps self)).
Proof.
  destruct (poll_from_spares _ _ _ _ _ Hpoll) as (Hc & Hkeep & Hsub).
  repeat (split; [done|]).
  intros p rest Hps Hexit. unfold poll in Hpoll. rewrite Hps in Hpoll |- *.
  simpl in Hpoll. rewrite Hps in Hpoll. simpl in Hpoll.
  destruct (poll_one w p self) as [s1|] eqn:E; simpl in Hpoll; [|done].
  apply poll_one_ps in E as [_ Hps1]. rewrite Hexit, Hps, remove_proc_head in Hps1.
  apply quiet_poll_from in Hpoll as [_ Hlen _ _]. rewrite Hps1 in Hlen. simpl. lia.
Qed.

Lemma poll_spares_running_witness :
  exists s',
    poll Sample.world Sample2.three_dispatched = Ret s'
    /\ clock s' = clock Sample2.three_dispatched
    /\ length (ps s') = 2.
Proof.
  destruct (poll Sample.world Sample2.three_dispatched) as [s'|e] eqn:E.
  - exists s'. split; [reflexivity|].
    destruct (poll_spares_running _ _ _ E) as (Hc & Hkeep & Hsub & _).
    split; [exact Hc|]. vm_compute in E. by injection E as <-.
  - vm_compute in E. discriminate E.
Defined.

End Polling.

(** ** What [wait] returns *)

Section WaitResult.
Import PooledCaller Frame.

Lemma insert_sorted_sorted {A} (key : A -> nat) x l :
  StronglySorted (fun a b => key a <= key b) l ->
  StronglySorted (fun a b => key a <= key b) (insert_sorted key x l)
  /\ forall y, y ∈ insert_sorted key x l <-> y = x \/ y ∈ l.
Proof.
  induction 1 as [|a l Hl IH Ha]; simpl.
  - split; [repeat constructor|]. intros y. by rewrite elem_of_cons.
  - destruct (Nat.leb_spec (key x) (key a)) as [Hle|Hgt].
    + split.
      * constructor; [by constructor|]. constructor; [done|].
        eapply Forall_impl; [exact Ha|]. intros b Hb. simpl in *. lia.
      * intros y. by rewrite elem_of_cons.
    + destruct IH as [IHs IHe]. split.
      * constructor; [done|]. apply Forall_forall. intros y Hy.
        apply IHe in Hy as [->|Hy]; [simpl; lia|].
        rewrite Forall_forall in Ha. by apply Ha.
      * intros y. rewrite !elem_of_cons, IHe. tauto.
Qed.

Lemma sorted_sorted {A} (key : A -> nat) l :
  StronglySorted (fun a b => key a <= key b) (sorted key l)
  /\ forall y, y ∈ sorted key l <-> y ∈ l.
Proof.
  induction l as [|x l [IHs IHe]]; simpl.
  - split; [constructor | done].
  - destruct (insert_sorted_sorted key x _ IHs) as [Hs He]. split; [done|].
    intros y. by rewrite He, IHe, elem_of_cons.
Qed.

Lemma deref_elem log refs jobs j :
  deref log refs = Ret jobs -> j ∈ jobs -> j ∈ log.
Proof.
  revert jobs. induction refs as [|r refs IH]; intros jobs H Hj; simpl in H.
  - injection H as <-. by apply not_elem_of_nil in Hj.
  - destruct (log !! r) as [j'|] eqn:E; [|done].
    destruct (deref log refs) as [js|]; simpl in H; [|done]. injection H as <-.
    apply elem_of_cons in Hj as [->|Hj]; [by eapply list_elem_of_lookup_2|].
    by eapply IH.
Qed.

End WaitResult.

Section WaitJobs.
Import PooledCaller Frame.

(** X16: the job list a completed [wait] returns is ordered by index,
    every job in it has a return code, the codes returned with
    [return_codes=True] are these codes in the same order, and each
    returned job is a record of the history. *)
Theorem wait_jobs_ordered fuel w self k rc r s'
    (Hwait : wait fuel w self k rc true = Some (Ret (r, s'))) :
  exists ress jobs codes,
    r = (if rc then CodesJobs codes jobs else ValuesJobs ress jobs)
    /\ StronglySorted (fun a b => j_idx a <= j_idx b) jobs
    /\ map j_returncode jobs = map Some codes
    /\ Forall (fun j => j ∈ _log s') jobs.
Proof.
  unfold wait in Hwait.
  destruct (wait_loop fuel w _ []) as [[[s1 ress1]|]|]; [|done|done].
  injection Hwait as Hfin. unfold wait_finish in Hfin.
  destruct (_async_get_res s1 ress1) as [[s2 ress2]|]; simpl in Hfin; [|done].
  destruct (deref (_log s2) (dict_values (_pid2job s2))) as [jobs0|] eqn:Ed;
    simpl in Hfin; [|done].
  destruct (returncodes (sorted j_idx jobs0)) as [codes|] eqn:Ec; simpl in Hfin;
    [|done].
  destruct (sorted_sorted j_idx jobs0) as [Hsorted Helem].
  exists (map snd (sorted fst ress2)), (sorted j_idx jobs0), codes.
  assert (Hlog : _log s' = _log s2) by (destruct k; by injection Hfin as _ <-).
  split; [by destruct rc; injection Hfin as <- _|]. split; [done|].
  split; [by apply returncodes_ok|].
  apply Forall_forall. intros j Hj. rewrite Hlog.
  apply Helem in Hj. by eapply deref_elem.
Qed.

Lemma wait_jobs_ordered_witness :
  exists r s',
    wait 10 Sample.world Sample.three_commands None true true = Some (Ret (r, s'))
    /\ exists jobs codes,
         r = CodesJobs codes jobs
         /\ StronglySorted (fun a b => j_idx a <= j_idx b) jobs
         /\ map j_returncode jobs = map Some codes.
Proof.
  destruct (wait 10 Sample.world Sample.three_commands None true true)
    as [[[r s']|e]|] eqn:E.
  - exists r, s'. split; [reflexivity|].
    destruct (wait_jobs_ordered _ _ _ _ _ _ _ E) as (ress & jobs & codes & Hr & Hs & Hc & _).
    clear E. exists jobs, codes. split; [exact Hr|]. split; [exact Hs | exact Hc].
  - vm_compute in E. discriminate E.
  - vm_compute in E. discriminate E.
Defined.

(** ** When [wait] ends and when it does not *)

Lemma wait_body_idle w s ress :
  (pool_size s <= 0)%Z -> ps s = [] -> res_queue s = [] -> workers s = [] ->
  exists s',
    wait_body w s ress = Ret (s', ress)
    /\ pool_size s' = pool_size s /\ ps s' = [] /\ res_queue s' = []
    /\ workers s' = [] /\ cmd_queue s' = cmd_queue s.
Proof.
  intros Hp Hps Hq Hw. unfold wait_body, dispatch.
  assert (Hd : dispatch_loop (length (cmd_queue s)) w s = Ret s).
  { destruct (length (cmd_queue s)); [done|]. simpl.
    unfold dispatch_guard. rewrite Hps. simpl.
    destruct (Z.ltb_spec (Z.of_nat 0) (pool_size s)); [simpl in *; lia | done]. }
  rewrite Hd. simpl. unfold poll, deliver. simpl. rewrite Hps, Hw, Hq. simpl.
  unfold _async_get_res, sleep, deliver. simpl.
  eexists. split; [reflexivity|]. by simpl.
Qed.

(** X17: a pool without slots never gets through its queue: if the pool
    size (or the override given to [wait]) is not positive, nothing is
    running and a job is queued, [wait] does not return, however long it
    is let run.  This is the case of a pool created with the default size
    on a host with a single CPU. *)
Theorem wait_without_slots_hangs w self k rc rj
    (Hsize : (default (pool_size self) k <= 0)%Z)
    (Hps : ps self = []) (Hqueue : cmd_queue self <> [])
    (Hres : res_queue self = []) (Hworkers : workers self = []) :
  forall fuel, wait fuel w self k rc rj = None.
Proof.
  intros fuel. unfold wait.
  set (s0 := match k with Some k' => set_pool_size k' self | None => self end).
  assert (H0 : (pool_size s0 <= 0)%Z /\ ps s0 = [] /\ res_queue s0 = []
               /\ workers s0 = [] /\ cmd_queue s0 <> []).
  { unfold s0. destruct k; simpl in *; by repeat split. }
  clearbody s0.
  assert (Hloop : forall ress, wait_loop fuel w s0 ress = None); [|by rewrite Hloop].
  revert s0 H0. induction fuel as [|fuel IH]; intros s0 (Hp & Hps0 & Hr & Hw & Hq) ress.
  - simpl. unfold wait_guard.
    destruct (cmd_queue s0); [done|]. simpl. by rewrite orb_true_r.
  - simpl. unfold wait_guard.
    destruct (cmd_queue s0) as [|q rest] eqn:Eq; [done|]. simpl.
    rewrite orb_true_r.
    destruct (wait_body_idle w s0 ress Hp Hps0 Hr Hw)
      as (s1 & -> & Hp1 & Hps1 & Hr1 & Hw1 & Hq1).
    apply IH. rewrite Hp1, Hq1, Eq. by repeat split.
Qed.

Lemma wait_without_slots_hangs_witness :
  (default (pool_size Sample2.default_pool_one_cpu) None <= 0)%Z
  /\ ps Sample2.default_pool_one_cpu = []
  /\ cmd_queue Sample2.default_pool_one_cpu <> []
  /\ wait 1000 Sample2.one_cpu_world Sample2.default_pool_one_cpu None false false
     = None.
Proof.
  assert (H1 : (default (pool_size Sample2.default_pool_one_cpu) None <= 0)%Z)
    by (vm_compute; discriminate).
  assert (H2 : cmd_queue Sample2.default_pool_one_cpu <> []) by discriminate.
  split; [exact H1|]. split; [reflexivity|]. split; [exact H2|].
  exact (wait_without_slots_hangs Sample2.one_cpu_world _ None false false
           H1 eq_refl H2 eq_refl eq_refl 1000).
Defined.

End WaitJobs.

Section WaitRounds.
Import PooledCaller Frame.

Lemma async_get_res_clock s ress s' ress' :
  _async_get_res s ress = Ret (s', ress') -> clock s' = clock s.
Proof.
  unfold _async_get_res. intros H.
  destruct (res_queue s) as [|res rest]; [by injection H as <- _|].
  destruct (e_output res) as [output|]; [|by injection H as <- _].
  destruct (_ !! _) as [pid|]; [|done]. simpl in H.
  destruct (dict_get pid _) as [r|]; [|done]. by injection H as <- _.
Qed.

Lemma poll_head_collected w s s' p rest :
  poll w s = Ret s' -> ps s = p :: rest ->
  os_exited w (clock s) (p_ref p) = true ->
  length (ps s') < length (ps s).
Proof.
  intros Hpoll Hps Hexit. unfold poll in Hpoll. rewrite Hps in Hpoll |- *.
  simpl in Hpoll. rewrite Hps in Hpoll. simpl in Hpoll.
  destruct (poll_one w p s) as [s1|] eqn:E; simpl in Hpoll; [|done].
  apply poll_one_ps in E as [_ Hps1]. rewrite Hexit, Hps, remove_proc_head in Hps1.
  apply quiet_poll_from in Hpoll as [_ Hlen _ _]. rewrite Hps1 in Hlen. simpl. lia.
Qed.

(** X18: every round of the loop of [wait] that runs to its end, on a
    pool with at least one slot, takes one tick of the clock, leaves the
    pool size alone and adds nothing to the jobs that are running or
    queued; once every process has terminated, such a round takes at least
    one of them off.  (A round need not run to its end: [watcher.join()]
    returns only when the command's output stream is closed.) *)
Theorem wait_round_progress w T s ress s' ress'
    (Hexit : all_exit_by w T) (Hpool : (1 <= pool_size s)%Z)
    (Hguard : wait_guard s = true)
    (H : wait_body w s ress = Ret (s', ress')) :
  clock s' = S (clock s) /\ pool_size s' = pool_size s
  /\ load s' <= load s /\ (T <= clock s -> load s' < load s).
Proof.
  unfold wait_body in H.
  destruct (dispatch w s) as [s1|] eqn:Ed; simpl in H; [|done].
  destruct (poll w (deliver w s1)) as [s2|] eqn:Ep; simpl in H; [|done].
  pose proof (dispatch_fills _ _ _ Ed) as Hfull.
  destruct (dispatch_loop_fifo _ _ _ _ Ed)
    as (started & procs & Hq & Hps & Hlen & _ & _ & Hc1).
  pose proof (moved_dispatch_loop _ _ _ _ Ed) as [Hp1 _].
  destruct (poll_from_spares _ _ _ _ _ Ep) as (Hc2 & _ & _).
  pose proof (quiet_poll_from _ _ _ _ _ Ep) as [Hp2 Hl2 Hq2 _].
  pose proof (quiet_async_get_res _ _ _ _ H) as [Hp3 Hl3 Hq3 _].
  apply async_get_res_clock in H as Hc3.
  simpl in *.
  assert (Hload1 : load s1 = load s).
  { unfold load. rewrite Hq, Hps, !length_app. lia. }
  assert (Hne : ps s1 <> []).
  { unfold dispatch_guard in Hfull. apply andb_false_iff in Hfull as [Hf|Hf].
    - apply Z.ltb_ge in Hf. rewrite Hp1 in Hf. destruct (ps s1); [simpl in Hf; lia|done].
    - apply Nat.ltb_ge in Hf. assert (Hq1 : cmd_queue s1 = [])
        by (apply length_zero_iff_nil; lia).
      rewrite Hq1, app_nil_r in Hq. unfold wait_guard in Hguard.
      rewrite Hps. rewrite <- Hq in Hlen.
      destruct (ps s), procs; simpl in *; try done.
      rewrite <- Hlen in Hguard. simpl in Hguard. done. }
  split; [congruence|]. split; [congruence|].
  unfold load in *. rewrite Hq3, Hq2. simpl. split; [lia|].
  intros HT. destruct (ps s1) as [|p rest] eqn:E1; [done|].
  assert (length (ps s2) < length (ps (deliver w s1))); [|simpl in *; rewrite E1 in *; simpl in *; lia].
  eapply poll_head_collected; [exact Ep | exact E1 |].
  apply Hexit. simpl. congruence.
Qed.

Lemma wait_round_progress_witness :
  all_exit_by Sample.world 1
  /\ (1 <= pool_size Sample.five_commands)%Z
  /\ wait_guard Sample.five_commands = true
  /\ exists s' ress',
       wait_body Sample.world Sample.five_commands [] = Ret (s', ress')
       /\ clock s' = 1 /\ load s' <= load Sample.five_commands.
Proof.
  assert (H1 : all_exit_by Sample.world 1).
  { intros clock n Hc. destruct clock; [lia | done]. }
  assert (H2 : (1 <= pool_size Sample.five_commands)%Z)
    by (vm_compute; discriminate).
  assert (H3 : wait_guard Sample.five_commands = true) by reflexivity.
  split; [exact H1|]. split; [exact H2|]. split; [exact H3|].
  destruct (wait_body Sample.world Sample.five_commands []) as [[s' ress']|e] eqn:E.
  - exists s', ress'. split; [reflexivity|].
    destruct (wait_round_progress _ _ _ _ _ _ H1 H2 H3 E) as (Hc & _ & Hl & _).
    split; [exact Hc | exact Hl].
  - vm_compute in E. discriminate E.
Defined.

(** ** The call interface *)

Lemma consume_submissions batch : forall self,
  consume self (submissions batch)
  = do s <- run_all self batch; Ret (s, length batch).
Proof.
  induction batch as [|[[cmd args] kw] batch IH]; intros self; simpl; [done|].
  destruct (run self cmd args kw) as [s1|]; simpl; [|done].
  rewrite IH. by destruct (run_all s1 batch).
Qed.

(** X19: calling the pool on a generator of submissions is submitting
    them in order and then waiting: when the call returns, the batch state
    is reset, the pool size is unchanged and the history has gained the
    jobs that were queued before and the new ones, numbered on from
    [_n_cmds]; the results of the [wait] are not handed back. *)
Theorem call_submits_and_waits fuel w self batch s'
    (Hcall : __call__ fuel w self (submissions batch) = Some (Ret s')) :
  exists queued r,
    run_all self batch = Ret queued
    /\ wait fuel w queued None false false = Some (Ret (r, s'))
    /\ _n_cmds s' = 0 /\ cmd_queue s' = [] /\ ps s' = []
    /\ pool_size s' = pool_size self
    /\ map j_idx (_log s')
       = map j_idx (_log self) ++ map queued_idx (cmd_queue self)
           ++ seq (_n_cmds self) (length batch).
Proof.
  unfold __call__ in Hcall. rewrite consume_submissions in Hcall.
  destruct (run_all self batch) as [queued|] eqn:Er; simpl in Hcall; [|done].
  destruct (wait fuel w queued None false false) as [[[r s1]|]|] eqn:Ew; [|done|done].
  injection Hcall as ->. exists queued, r. split; [done|]. split; [done|].
  pose proof (wait_history _ _ _ _ _ _ _ _ Ew) as Hlog.
  pose proof (wait_pool_size _ _ _ _ _ _ _ _ Ew) as Hsize.
  apply run_all_queues in Er as (Hp & Hl & _ & Hq).
  apply wait_returns in Ew as (s & _ & Hps & Hqs & ->). simpl.
  rewrite Hqs, Hps. repeat (split; [done|]). simpl in Hsize, Hlog.
  split; [congruence|]. by rewrite Hlog, Hl, Hq.
Qed.

Lemma call_submits_and_waits_witness :
  exists s',
    __call__ 10 Sample.world (__init__ Sample.world (Some 2%Z))
      (submissions [(Sample.echo, [], []); (Sample.echo, [], [])])
    = Some (Ret s')
    /\ map j_idx (_log s') = [0; 1].
Proof.
  destruct (__call__ 10 Sample.world (__init__ Sample.world (Some 2%Z))
              (submissions [(Sample.echo, [], []); (Sample.echo, [], [])]))
    as [[s'|e]|] eqn:E.
  - exists s'. split; [reflexivity|].
    destruct (call_submits_and_waits _ _ _ _ _ E) as (q & r & _ & _ & _ & _ & _ & _ & Hlog).
    exact Hlog.
  - vm_compute in E. discriminate E.
  - vm_compute in E. discriminate E.
Defined.

End WaitRounds.

(** ** The output watcher *)

Lemma async_reader_closed_form verbose idx speed_up f : forall n acc,
  let r := _async_reader verbose idx f speed_up n acc in
  rd_output r = rd_output acc ++ stream_lines f
  /\ rd_stderr r = rd_stderr acc +:+ echoed idx (stream_lines f)
  /\ rd_stdout r = rd_stdout acc +:+ shown verbose (stream_lines f)
  /\ rd_sleeps acc <= rd_sleeps r <= rd_sleeps acc + length (stream_lines f)
  /\ rd_fault r = match stream_fault f with
                  | Some e => Some e
                  | None => rd_fault acc
                  end.
Proof.
  assert (Hend : forall acc : reader_run,
            rd_output acc = rd_output acc ++ []
            /\ rd_stderr acc = rd_stderr acc +:+ echoed idx []
            /\ rd_stdout acc = rd_stdout acc +:+ shown verbose []
            /\ rd_sleeps acc <= rd_sleeps acc <= rd_sleeps acc + 0).
  { intros acc. rewrite app_nil_r. unfold echoed, shown. simpl.
    rewrite !sapp_nil_r. destruct (1 <? verbose)%Z; rewrite ?sapp_nil_r;
      repeat split; try done; lia. }
  induction f as [|raw f IH]; intros n acc; simpl.
  - destruct (Hend acc) as (? & ? & ? & ?). repeat split; try done; lia.
  - destruct raw as [line|reason]; simpl.
    2: { destruct (Hend acc) as (? & ? & ? & ?). repeat split; try done; lia. }
    destruct (String.eqb_spec line EmptyString) as [->|Hne]; simpl.
    + destruct (Hend acc) as (? & ? & ? & ?). repeat split; try done; lia.
    + specialize (IH (S n)). simpl in IH.
      match goal with |- context [_async_reader _ _ _ _ _ ?a] =>
        destruct (IH a) as (Ho & He & Hs & Hn & Hf) end.
      simpl in *. rewrite Ho, He, Hs, Hf, <- app_assoc. simpl.
      split; [done|]. unfold echoed, shown. rewrite !filter_cons.
      destruct (severe line) eqn:Esev.
      * rewrite decide_True by done. rewrite decide_False by (intros H; by apply H).
        simpl map. rewrite concat_empty_cons, !sapp_assoc.
        split; [done|]. split; [done|].
        split; [destruct (speed_up n); simpl in *; lia | done].
      * rewrite decide_False by done. rewrite decide_True by done.
        split; [done|]. split; [|split; [|done]].
        -- destruct (1 <? verbose)%Z; [|done].
           by rewrite concat_empty_cons, sapp_assoc.
        -- destruct (speed_up n); simpl in *; lia.
Qed.

Lemma async_reader_hurried verbose idx f : forall n acc,
  rd_sleeps (_async_reader verbose idx f (fun _ => true) n acc) = rd_sleeps acc.
Proof.
  induction f as [|raw f IH]; intros n acc; simpl; [done|].
  destruct raw as [line|reason]; simpl; [|done].
  destruct (String.eqb line EmptyString); [done|]. by rewrite IH.
Qed.

(** X20: the watcher captures every line of the stream, in order, up to
    its end or to the first line that is not UTF-8, where the thread ends
    with [UnicodeDecodeError] and the rest of the stream is left unread;
    this holds whatever the verbosity and the pacing.  Each captured line
    that starts with an asterisk or with the reverse-video escape is
    echoed on the error stream behind a banner naming the job, at every
    verbosity; the other lines are shown on the output stream only when
    [verbose > 1]; it sleeps at most once per line and not at all once it
    is told to speed up.  On a stream of valid UTF-8 the thread ends
    without fault. *)
Theorem watcher_captures_all (verbose : Z) (idx : nat) (f : list rawline)
    (speed_up : nat -> bool) :
  let r := watch verbose idx f speed_up in
  rd_output r = stream_lines f
  /\ rd_stderr r = echoed idx (stream_lines f)
  /\ rd_stdout r = shown verbose (stream_lines f)
  /\ rd_sleeps r <= length (stream_lines f)
  /\ rd_sleeps (watch verbose idx f (fun _ => true)) = 0
  /\ rd_fault r = stream_fault f
  /\ (forall e, rd_fault r = Some e ->
        exn_cls e = UnicodeDecodeError
        /\ exists reason rest,
             f = map Encoded (stream_lines f) ++ Undecodable reason :: rest)
  /\ (forall texts, f = map Encoded texts -> rd_fault r = None).
Proof.
  intros r.
  assert (Hfault : forall g e, stream_fault g = Some e ->
            exn_cls e = UnicodeDecodeError
            /\ exists reason rest,
                 g = map Encoded (stream_lines g) ++ Undecodable reason :: rest).
  { induction g as [|raw g IH]; intros e He; simpl in *; [done|].
    destruct raw as [line|reason].
    - destruct (String.eqb line EmptyString); [done|].
      destruct (IH e He) as (Hcls & reason & rest & Hg).
      split; [done|]. exists reason, rest. simpl. by rewrite <- Hg.
    - injection He as <-. split; [done|]. by exists reason, g. }
  assert (Hclean : forall texts, stream_fault (map Encoded texts) = None).
  { induction texts as [|text texts IH]; simpl; [done|].
    by destruct (String.eqb text EmptyString). }
  unfold r, watch.
  match goal with |- context [_async_reader _ _ _ _ _ ?a] =>
    destruct (async_reader_closed_form verbose idx speed_up f 0 a)
      as (Ho & He & Hs & Hn & Hf) end.
  simpl in *.
  assert (Hf' : rd_fault
                  (_async_reader verbose idx f speed_up 0
                     {| rd_output := []; rd_stderr := EmptyString;
                        rd_stdout := EmptyString; rd_sleeps := 0;
                        rd_fault := None |}) = stream_fault f).
  { rewrite Hf. by destruct (stream_fault f). }
  rewrite Ho, He, Hs, Hf'. repeat (split; [done || lia|]).
  split; [by rewrite async_reader_hurried|]. split; [done|].
  split; [exact (Hfault f)|]. intros texts ->. apply Hclean.
Qed.
